(** * SpectralZK: tiling engine, commitment scheme and protocol

    A shallow embedding of [spectralzk/tiling.py], [spectralzk/commitment.py]
    and [spectralzk/protocol.py], followed by the properties of the
    protocol that the specification states.

    Modelling conventions.
    - Python [int] is [Z].  [Point] coordinates are typed [float] in the
      source, but the generator only ever builds points with integer
      coordinates ([origin + x] for [x] in [range]), so a [Point] carries two
      [Z]; the Euclidean distance test of [get_neighbors] is done in exact
      arithmetic on the squared distance.
    - [Dict[Point, str]] is a [gmap Point string], a Python [set] a [gset],
      a Python list a [list].
    - [hashlib] is outside the repository: the two digests it supplies are
      the fields of the class [Hashlib].
    - Every call into [secrets] or [random] takes its outcome as an explicit
      argument. *)

From stdpp Require Import base decidable numbers option list list_numbers.
From stdpp Require Import countable gmap fin_maps fin_sets sorting.
From stdpp Require Import strings pretty.
From Stdlib Require Import Ascii QArith.QArith_base.

Set Warnings "-register-all,-clear-no-such-hyp".

Local Open Scope string_scope.
Local Open Scope Z_scope.

(** ** External digests *)

Class Hashlib := {
  (** [hashlib.md5(data.encode()).digest()] read as a big-endian number *)
  md5_digest : string → N;
  (** [hashlib.sha256(data.encode()).hexdigest()] *)
  sha256_hexdigest : string → string;
}.

(** ** tiling.py *)

Record Point := mkPoint { Point_x : Z; Point_y : Z }.

Global Instance Point_eq_dec : EqDecision Point.
Proof. solve_decision. Defined.

Global Instance Point_countable : Countable Point.
Proof.
  refine (inj_countable' (λ p, (Point_x p, Point_y p))
                         (λ xy, mkPoint xy.1 xy.2) _).
  by intros [].
Defined.

(** [Point.distance_to(other) <= radius], on the squares. *)
Definition distance_to_le (self other : Point) (radius : Q) : bool :=
  let d2 := (Point_x self - Point_x other) ^ 2
            + (Point_y self - Point_y other) ^ 2 in
  Qle_bool 0 radius && Qle_bool (inject_Z d2) (radius * radius).

Definition default_radius : Q := 3 # 2.

Record Tiling := mkTiling { Tiling_seed : Z }.

Definition TILE_TYPES : list string := ["A"; "B"; "C"; "D"; "E"; "F"].

(** [f"{v:.3f}"] of an integer-valued coordinate (exact as long as the
    integer is representable as a float, that is up to 2^53 in size). *)
Definition format_3f (v : Z) : string := pretty v +:+ ".000".

Section tiling.
Context `{Hashlib}.

(** [Tiling._hash_position] followed by [int(pos_hash[:8], 16)]: the
    first eight hex digits of the digest are its top 32 bits. *)
Definition _hash_position (self : Tiling) (x y : Z) : N :=
  (md5_digest (pretty (Tiling_seed self) +:+ ":" +:+ format_3f x
               +:+ "," +:+ format_3f y) mod 2 ^ 128)%N.

Definition hash_prefix_int (pos_hash : N) : Z :=
  Z.of_N (pos_hash / 2 ^ 96)%N.

Definition get_tile_type (self : Tiling) (pos : Point)
    (neighbors : option (list string)) : string :=
  let pos_hash := _hash_position self (Point_x pos) (Point_y pos) in
  let base_value := hash_prefix_int pos_hash in
  let base_value :=
    match neighbors with
    | Some ((n0 :: _) as neighbors) =>
        let base_value :=
          if (3 <=? Z.of_nat (length neighbors))
             && forallb (λ n, bool_decide (n = n0)) neighbors
          then base_value + 1 else base_value in
        if bool_decide ("A" ∈ neighbors) && bool_decide ("B" ∈ neighbors)
        then base_value `mod` 2 + 2 else base_value
    | _ => base_value
    end in
  nth (Z.to_nat (base_value `mod` Z.of_nat (length TILE_TYPES)))
      TILE_TYPES EmptyString.

Definition get_neighbors (center : Point) (radius : Q) : list Point :=
  dx ← [-1; 0; 1];
  dy ← [-1; 0; 1];
  if bool_decide (dx = 0) && bool_decide (dy = 0) then []
  else
    let neighbor := mkPoint (Point_x center + dx) (Point_y center + dy) in
    if distance_to_le center neighbor radius then [neighbor] else [].

(** The body of the inner loop of [generate_region]. *)
Definition place_tile (self : Tiling) (origin : Point) (y : Z)
    (tiles : gmap Point string) (x : Z) : gmap Point string :=
  let pos := mkPoint (Point_x origin + x) (Point_y origin + y) in
  let neighbors := get_neighbors pos default_radius in
  let neighbor_types := omap (λ n, tiles !! n) neighbors in
  let tile_type := get_tile_type self pos (Some neighbor_types) in
  <[pos := tile_type]> tiles.

(** [for x in range(width)], one row. *)
Definition place_row (self : Tiling) (origin : Point) (width : Z)
    (tiles : gmap Point string) (y : Z) : gmap Point string :=
  foldl (place_tile self origin y) tiles (seqZ 0 width).

Definition generate_region (self : Tiling) (width height : Z)
    (origin : option Point) : gmap Point string :=
  let origin := default (mkPoint 0 0) origin in
  foldl (place_row self origin width) ∅ (seqZ 0 height).
End tiling.

(** ** commitment.py *)

(** The values handed to [Commitment.create]: strings, the JSON scalars,
    lists and tuples, and any other object, which [json.dumps] renders
    through [default=str] and which is kept here as its [str()].
    Characters of a string are code points below 256. *)
Inductive PyValue :=
  | PyNone
  | PyBool (b : bool)
  | PyInt (z : Z)
  | PyStr (s : string)
  | PyList (items : list PyValue)
  | PyTuple (items : list PyValue)
  | PyObject (str_repr : string).

Definition hex_digit (n : N) : ascii :=
  match n with
  | 10 => "a" | 11 => "b" | 12 => "c" | 13 => "d" | 14 => "e" | 15 => "f"
  | _ => pretty_N_char n
  end%N%char.

(** [json.encoder.py_encode_basestring_ascii] on one character: everything
    outside [' '..'~'], the quote and the backslash are escaped. *)
Definition json_escape_char (c : ascii) : string :=
  let n := N_of_ascii c in
  if bool_decide (n = 34)%N then String "\" (String c EmptyString)
  else if bool_decide (n = 92)%N then "\\"
  else if bool_decide (n = 10)%N then "\n"
  else if bool_decide (n = 13)%N then "\r"
  else if bool_decide (n = 9)%N then "\t"
  else if bool_decide (n = 12)%N then "\f"
  else if bool_decide (n = 8)%N then "\b"
  else if bool_decide (32 ≤ n ∧ n ≤ 126)%N then String c EmptyString
  else "\u00" +:+ String (hex_digit (n / 16)) (String (hex_digit (n mod 16))
                                                  EmptyString).

Definition json_string (s : string) : string :=
  let quote := String (ascii_of_N 34) EmptyString in
  quote +:+ String.concat EmptyString (map json_escape_char (String.list_ascii_of_string s))
        +:+ quote.

(** [json.dumps(value, sort_keys=True, default=str)] with the default
    separators. *)
Fixpoint json_dumps (value : PyValue) : string :=
  match value with
  | PyNone => "null"
  | PyBool true => "true"
  | PyBool false => "false"
  | PyInt z => pretty z
  | PyStr s => json_string s
  | PyList items | PyTuple items =>
      "[" +:+ String.concat ", " (map json_dumps items) +:+ "]"
  | PyObject str_repr => json_string str_repr
  end.

Module Commitment.
Section commitment.
Context `{Hashlib}.

(** [token_hex16] is the outcome of [secrets.token_hex(16)], drawn only
    when [nonce] is [None]. *)
Definition create (token_hex16 : string) (value : PyValue)
    (nonce : option string) : string * string :=
  let nonce := default token_hex16 nonce in
  let serialized :=
    match value with
    | PyStr s => s
    | _ => json_dumps value
    end in
  let data := serialized +:+ "||" +:+ nonce in
  let commitment := sha256_hexdigest data in
  (commitment, nonce).

(** The nonce is supplied, so [create] draws nothing here. *)
Definition verify (commitment : string) (value : PyValue)
    (nonce : string) : bool :=
  let '(expected_commitment, _) := create EmptyString value (Some nonce) in
  bool_decide (commitment = expected_commitment).

Definition create_vector (token_hex16 : string) (values : list PyValue)
    (nonce : option string) : string * string :=
  create token_hex16 (PyList values) nonce.
End commitment.
End Commitment.

(** ** protocol.py *)

Record Instance := mkInstance {
  Instance_tiles : gmap Point string;
  Instance_size : Z;
  Instance_seed : Z;
}.

Record Witness := mkWitness {
  Witness_path : list (Point * string);
  Witness_commitment : string;
  Witness_nonce : string;
}.

Record Challenge := mkChallenge {
  Challenge_challenge_id : string;
  Challenge_positions : list Z;
  Challenge_commitment : string;
}.

(** A revealed step is [(pos_idx, pos, tile)]; [pos] and [tile] are [None]
    for an index past the end of the path. *)
Record Response := mkResponse {
  Response_challenge_id : string;
  Response_revealed_steps : list (Z * option Point * option string);
  Response_path_length : Z;
  Response_commitment : string;
  Response_nonce : string;
}.

Record SpectralProtocol := mkSpectralProtocol {
  SpectralProtocol_seed : Z;
  SpectralProtocol_tiling : Tiling;
}.

(** [SpectralProtocol.__init__]; [randbits32] is the outcome of
    [secrets.randbits(32)]. *)
Definition SpectralProtocol_init (randbits32 : Z) (seed : option Z)
    : SpectralProtocol :=
  let seed := default randbits32 seed in
  mkSpectralProtocol seed (mkTiling seed).

(** The sort key [(p.x, p.y)] of [_find_path]: tuples compare
    lexicographically. *)
Definition point_key_le (p q : Point) : Prop :=
  Point_x p < Point_x q ∨ (Point_x p = Point_x q ∧ Point_y p ≤ Point_y q).

Global Instance point_key_le_dec : RelDecision point_key_le.
Proof. intros p q. unfold point_key_le. apply _. Defined.

(** [str(pos)], the dataclass repr. *)
Definition Point_str (pos : Point) : string :=
  "Point(x=" +:+ pretty (Point_x pos) +:+ ", y=" +:+ pretty (Point_y pos)
  +:+ ")".

(** [seq[i]] of a Python list: a negative index counts from the end,
    [None] is an [IndexError]. *)
Definition py_index {A} (l : list A) (i : Z) : option A :=
  if bool_decide (0 ≤ i) then l !! Z.to_nat i
  else if bool_decide (- Z.of_nat (length l) ≤ i)
       then l !! Z.to_nat (Z.of_nat (length l) + i)
       else None.

Section protocol.
Context `{Hashlib}.

Definition create_instance (self : SpectralProtocol) (size : Z) : Instance :=
  let tiles :=
    generate_region (SpectralProtocol_tiling self) size size None in
  mkInstance tiles size (SpectralProtocol_seed self).

(** The loop of [_find_path]: [fuel] iterations of [range(length)] are
    left; returning [path] early is the [break]. *)
Fixpoint _find_path_loop (tiles : gmap Point string) (fuel : nat)
    (path : list (Point * string)) (current : Point)
    (visited : gset Point) : list (Point * string) :=
  match fuel with
  | O => path
  | S fuel =>
      match tiles !! current with
      | None => path
      | Some tile =>
          if bool_decide (current ∈ visited) then path
          else
            let path := (path ++ [(current, tile)])%list in
            let visited := visited ∪ {[current]} in
            let neighbors := get_neighbors current default_radius in
            let valid_next :=
              filter (λ n, is_Some (tiles !! n) ∧ n ∉ visited) neighbors in
            match valid_next with
            | [] => path
            | _ =>
                match merge_sort point_key_le valid_next with
                | next :: _ => _find_path_loop tiles fuel path next visited
                | [] => path
                end
            end
      end
  end.

Definition _find_path (self : SpectralProtocol) (tiles : gmap Point string)
    (start : Point) (length : Z) : list (Point * string) :=
  _find_path_loop tiles (Z.to_nat length) [] start ∅.

(** [random_choice] is the outcome of [random.choice]'s index draw and
    [token_hex16] that of the nonce draw in [Commitment.create]; [None] is
    the [IndexError] of [random.choice] on an empty list. *)
Definition generate_witness (self : SpectralProtocol) (random_choice : nat)
    (token_hex16 : string) (instance : Instance) (path_length : Z)
    (start : option Point) : option Witness :=
  start ← match start with
          | Some start => Some start
          | None =>
              let positions := (map_to_list (Instance_tiles instance)).*1 in
              positions !! (random_choice `mod` length positions)%nat
          end;
  let path := _find_path self (Instance_tiles instance) start path_length in
  let path_data :=
    PyList (map (λ '(pos, tile), PyTuple [PyStr (Point_str pos); PyStr tile])
                path) in
  let '(commitment, nonce) :=
    Commitment.create token_hex16 path_data None in
  Some (mkWitness path commitment nonce).

(** The body of the loop of [create_challenge]; [randbelow k] is the
    outcome of the [k]-th call [secrets.randbelow(max_positions)]. *)
Definition draw_position (randbelow : nat → Z) (positions : list Z)
    (k : nat) : list Z :=
  let pos := randbelow k in
  if bool_decide (pos ∈ positions) then positions
  else (positions ++ [pos])%list.

(** [token_hex8] is the outcome of [secrets.token_hex(8)]. *)
Definition create_challenge (self : SpectralProtocol) (token_hex8 : string)
    (randbelow : nat → Z) (instance : Instance) (commitment : string)
    (num_challenges : option Z) : Challenge :=
  let num_challenges := default 3 num_challenges in
  let challenge_id := token_hex8 in
  let max_positions := Instance_size instance * Instance_size instance in
  let positions :=
    foldl (draw_position randbelow) []
          (seq 0 (Z.to_nat (Z.min num_challenges max_positions))) in
  mkChallenge challenge_id (merge_sort Z.le positions) commitment.

(** [None] is the [IndexError] of [witness.path[pos_idx]]. *)
Definition respond_to_challenge (self : SpectralProtocol) (witness : Witness)
    (challenge : Challenge) : option Response :=
  revealed_steps ←
    mapM (λ pos_idx,
            if bool_decide (pos_idx < Z.of_nat (length (Witness_path witness)))
            then '(pos, tile) ← py_index (Witness_path witness) pos_idx;
                 Some (pos_idx, Some pos, Some tile)
            else Some (pos_idx, None, None))
         (Challenge_positions challenge);
  Some (mkResponse (Challenge_challenge_id challenge)
                   revealed_steps
                   (Z.of_nat (length (Witness_path witness)))
                   (Witness_commitment witness)
                   (Witness_nonce witness)).

(** The dict comprehension of [verify_response], entry by entry: a later
    step with the same index replaces an earlier one. *)
Definition record_step (revealed_map : gmap Z (option Point * option string))
    (step : Z * option Point * option string)
    : gmap Z (option Point * option string) :=
  let '(pos_idx, pos, claimed_tile) := step in
  <[pos_idx := (pos, claimed_tile)]> revealed_map.

Definition build_revealed_map
    (revealed_steps : list (Z * option Point * option string))
    : gmap Z (option Point * option string) :=
  foldl record_step ∅ revealed_steps.

(** The three checks both loops of [verify_response] make on a revealed
    value: neither part is [None], the point is a tile of the instance and
    the tile there is the claimed one. *)
Definition step_matches (instance : Instance)
    (pos : option Point) (claimed_tile : option string) : bool :=
  match pos, claimed_tile with
  | Some pos, Some claimed_tile =>
      match Instance_tiles instance !! pos with
      | None => false
      | Some tile => bool_decide (tile = claimed_tile)
      end
  | _, _ => false
  end.

Definition verify_response (self : SpectralProtocol) (instance : Instance)
    (challenge : Challenge) (response : Response) : bool :=
  if bool_decide (Response_challenge_id response
                  ≠ Challenge_challenge_id challenge) then false
  else if bool_decide (Response_commitment response
                       ≠ Challenge_commitment challenge) then false
  else
    let revealed_map :=
      build_revealed_map (Response_revealed_steps response) in
    if negb (forallb
               (λ pos_idx,
                  if bool_decide (pos_idx < Response_path_length response)
                  then match revealed_map !! pos_idx with
                       | None => false
                       | Some (pos, claimed_tile) =>
                           step_matches instance pos claimed_tile
                       end
                  else true)
               (Challenge_positions challenge))
    then false
    else if negb (forallb
                    (λ '(pos_idx, (pos, claimed_tile)),
                       if bool_decide (pos_idx < Response_path_length response)
                       then bool_decide (pos_idx ∈ Challenge_positions challenge)
                            && step_matches instance pos claimed_tile
                       else true)
                    (map_to_list revealed_map))
    then false
    else if bool_decide (Response_path_length response < 0
                         ∨ Response_path_length response
                           > Z.of_nat (size (Instance_tiles instance)))
    then false
    else true.
End protocol.

(** ** tiling.py, continued: the random walk *)

(** The loop of [Tiling.find_path]: [fuel] iterations of [range(length)]
    are left and [k] calls of [random.choice] have been made;
    [random_choice k] is the outcome of the index draw of the [k]-th call.
    [None] is an exception: the [KeyError] of [tiles[current]] or the
    [IndexError] of [random.choice]. *)
Fixpoint find_path_loop (random_choice : nat → nat)
    (tiles : gmap Point string) (fuel : nat) (k : nat)
    (path : list (Point * string)) (current : Point)
    : option (list (Point * string)) :=
  match fuel with
  | O => Some path
  | S fuel =>
      tile ← tiles !! current;
      let path := (path ++ [(current, tile)])%list in
      let neighbors := get_neighbors current default_radius in
      let valid_next := filter (λ n, is_Some (tiles !! n)) neighbors in
      match valid_next with
      | [] => Some path
      | _ =>
          current ← valid_next !! (random_choice k `mod` length valid_next)%nat;
          find_path_loop random_choice tiles fuel (S k) path current
      end
  end.

Definition find_path (self : Tiling) (random_choice : nat → nat)
    (tiles : gmap Point string) (start : Point) (length : Z)
    : option (list (Point * string)) :=
  match tiles !! start with
  | None => Some []
  | Some _ => find_path_loop random_choice tiles (Z.to_nat length) 0 [] start
  end.

(** ** Definitions used by the statements *)

(** The cells [generate_region] visits, in generation order (y outer,
    x inner). *)
Definition region_points (origin : Point) (width height : Z) : list Point :=
  y ← seqZ 0 height;
  x ← seqZ 0 width;
  [mkPoint (Point_x origin + x) (Point_y origin + y)].

(** The rule composition of the tile type in the specification's words:
    rule 1 increments the base value when at least three labels are
    supplied and all are identical; rule 2, checked on the same labels,
    then overwrites the value with [value mod 2 + 2] when both "A" and "B"
    are among them. *)
Definition all_identical (neighbors : list string) : Prop :=
  Forall (λ a, Forall (λ b, a = b) neighbors) neighbors.

Global Instance all_identical_dec neighbors : Decision (all_identical neighbors).
Proof. unfold all_identical. apply _. Defined.

Definition tile_rules_spec (base : Z) (neighbors : list string) : Z :=
  let value :=
    if bool_decide (3 ≤ Z.of_nat (length neighbors) ∧ all_identical neighbors)
    then base + 1 else base in
  if bool_decide ("A" ∈ neighbors ∧ "B" ∈ neighbors)
  then value `mod` 2 + 2 else value.

Definition tile_label_spec (value : Z) : string :=
  default EmptyString (TILE_TYPES !! Z.to_nat (value `mod` 6)).

(** What [Commitment.create] hashes: the serialized value, and that
    followed by the separator and the nonce. *)
Definition serialized_value (value : PyValue) : string :=
  match value with
  | PyStr s => s
  | _ => json_dumps value
  end.

Definition commitment_preimage (value : PyValue) (nonce : string) : string :=
  serialized_value value +:+ "||" +:+ nonce.

(** SHA-256 does not collide on the two strings [a] and [b]. *)
Definition no_collision `{Hashlib} (a b : string) : Prop :=
  sha256_hexdigest a = sha256_hexdigest b → a = b.

(** What the loop of [_find_path] keeps true of the path built so far: no
    point occurs twice and every entry is a tile of the mapping. *)
Record path_ok (tiles : gmap Point string) (path : list (Point * string)) : Prop := {
  path_ok_NoDup : NoDup path.*1;
  path_ok_tiles : ∀ pos tile, (pos, tile) ∈ path → tiles !! pos = Some tile;
}.

(** What an honest prover reveals for the index [pos_idx]: the step of the
    path there, or nothing past its end. *)
Definition reveal_value (path : list (Point * string)) (pos_idx : Z)
    : option Point * option string :=
  if bool_decide (pos_idx < Z.of_nat (length path))
  then match py_index path pos_idx with
       | Some (pos, tile) => (Some pos, Some tile)
       | None => (None, None)
       end
  else (None, None).

Definition reveal (path : list (Point * string)) (pos_idx : Z)
    : Z * option Point * option string :=
  (pos_idx, (reveal_value path pos_idx).1, (reveal_value path pos_idx).2).

(** A stand-in for [hashlib] on which the definitions can be run. *)
Definition toy_hashlib : Hashlib :=
  {| md5_digest := λ s, (N.of_nat (String.length s) * 2 ^ 96)%N;
     sha256_hexdigest := λ s, s |}.

(** A sample run on [toy_hashlib]: seed 42, a 3 x 3 instance, a path of at
    most five steps from (1, 1) and the default three challenges. *)
Definition sample_protocol : SpectralProtocol :=
  SpectralProtocol_init 0 (Some 42).

Definition sample_instance : Instance :=
  @create_instance toy_hashlib sample_protocol 3.

Definition sample_witness : Witness :=
  default (mkWitness [] EmptyString EmptyString)
    (@generate_witness toy_hashlib sample_protocol 0 "5eed" sample_instance 5
       (Some (mkPoint 1 1))).

Definition sample_randbelow (k : nat) : Z := (Z.of_nat k * 3) `mod` 9.

Definition sample_challenge : Challenge :=
  create_challenge sample_protocol "c0ffee" sample_randbelow sample_instance
    (Witness_commitment sample_witness) None.

(** ** tiling.py, continued: the periodicity check *)

(** One iteration of the innermost loop of [check_periodicity], over one
    item of [tiles.items()]: [counts] is [(matches, total)]. *)
Definition count_shift (tiles : gmap Point string) (px py : Z)
    (counts : Z * Z) (item : Point * string) : Z * Z :=
  let '(matches, total) := counts in
  let '(pos, tile_type) := item in
  let shifted := mkPoint (Point_x pos + px) (Point_y pos + py) in
  match tiles !! shifted with
  | Some tile =>
      let total := total + 1 in
      if bool_decide (tile = tile_type) then (matches + 1, total)
      else (matches, total)
  | None => (matches, total)
  end.

Definition period_counts (tiles : gmap Point string) (px py : Z) : Z * Z :=
  foldl (count_shift tiles px py) (0, 0) (map_to_list tiles).

(** The body of the loop over [py]. *)
Definition record_period (tiles : gmap Point string)
    (results : gmap (Z * Z) (Z * Z)) (period : Z * Z) : gmap (Z * Z) (Z * Z) :=
  let '(matches, total) := period_counts tiles period.1 period.2 in
  if bool_decide (total > 0) then <[period := (matches, total)]> results
  else results.

(** [Tiling.check_periodicity].  The source stores the float
    [matches / total] under [(px, py)]; the model keeps the two counts. *)
Definition check_periodicity (self : Tiling) (tiles : gmap Point string)
    (max_period : option Z) : gmap (Z * Z) (Z * Z) :=
  let max_period := default 5 max_period in
  foldl (λ results px,
           foldl (λ results py, record_period tiles results (px, py))
                 results (seqZ 1 max_period))
        ∅ (seqZ 1 max_period).

(** ** Definitions used by the further properties *)

(** One step of [generate_region] at the cell [pos]: the body of the inner
    loop, with the cell in place of the loop indices. *)
Definition place_at `{Hashlib} (self : Tiling) (tiles : gmap Point string)
    (pos : Point) : gmap Point string :=
  <[pos := get_tile_type self pos
             (Some (omap (λ n, tiles !! n) (get_neighbors pos default_radius)))]>
    tiles.

(** [generate_region] places [p] before [q]: on a lower row, or on the same
    row further left. *)
Definition placed_before (p q : Point) : Prop :=
  Point_y p < Point_y q ∨ (Point_y p = Point_y q ∧ Point_x p < Point_x q).

Global Instance placed_before_dec : RelDecision placed_before.
Proof. intros p q. unfold placed_before. apply _. Defined.

(** The labels, in [get_neighbors] order, that the neighbours of [pos]
    placed before it have in [tiles]. *)
Definition placed_neighbor_types (tiles : gmap Point string) (pos : Point)
    : list string :=
  omap (λ n, if decide (placed_before n pos) then tiles !! n else None)
       (get_neighbors pos default_radius).

(** Each point of the list is a neighbour (default radius) of the one
    before it. *)
Definition steps_adjacent (points : list Point) : Prop :=
  ∀ i p q, points !! i = Some p → points !! S i = Some q →
           q ∈ get_neighbors p default_radius.

(** The neighbours of [pos] that are keys of [tiles]: the [valid_next] of
    [Tiling.find_path]. *)
Definition tile_neighbors (tiles : gmap Point string) (pos : Point)
    : list Point :=
  filter (λ n, is_Some (tiles !! n)) (get_neighbors pos default_radius).

(** [next] is the step [_find_path] takes from [p] when [seen] holds the
    points of the path so far, [p] included: a neighbour of [p] that is a
    key of [tiles] and not in [seen], and the smallest such by the key
    [(x, y)]. *)
Definition greedy_step (tiles : gmap Point string) (seen : list Point)
    (p next : Point) : Prop :=
  next ∈ get_neighbors p default_radius
  ∧ is_Some (tiles !! next)
  ∧ (next ∉ seen)
  ∧ ∀ n, n ∈ get_neighbors p default_radius → is_Some (tiles !! n) →
         n ∉ seen → point_key_le next n.

(** Every step of [points], continuing a walk that has already seen
    [seen], is the greedy step. *)
Definition greedy_from (tiles : gmap Point string) (seen points : list Point)
    : Prop :=
  ∀ i p q, points !! i = Some p → points !! S i = Some q →
           greedy_step tiles (seen ++ take (S i) points) p q.

(** Every neighbour of [p] that is a key of [tiles] is among [points]. *)
Definition dead_end (tiles : gmap Point string) (points : list Point)
    (p : Point) : Prop :=
  ∀ n, n ∈ get_neighbors p default_radius → is_Some (tiles !! n) →
       n ∈ points.


(** The value [generate_witness] commits to: the path as a list of
    [(str(pos), tile)] pairs. *)
Definition witness_path_data (path : list (Point * string)) : PyValue :=
  PyList (map (λ '(pos, tile), PyTuple [PyStr (Point_str pos); PyStr tile])
              path).

(** The body of the loop of [respond_to_challenge] for one index. *)
Definition reveal_step (path : list (Point * string)) (pos_idx : Z)
    : option (Z * option Point * option string) :=
  if bool_decide (pos_idx < Z.of_nat (length path))
  then '(pos, tile) ← py_index path pos_idx;
       Some (pos_idx, Some pos, Some tile)
  else Some (pos_idx, None, None).

(** The sample response. *)
Definition sample_response : Response :=
  default (mkResponse EmptyString [] 0 EmptyString EmptyString)
    (respond_to_challenge sample_protocol sample_witness sample_challenge).

(** * Properties *)

(** ** The model on concrete inputs *)

Example get_neighbors_integer_centre :
  get_neighbors (mkPoint 5 5) default_radius
  = [mkPoint 4 4; mkPoint 4 5; mkPoint 4 6; mkPoint 5 4; mkPoint 5 6;
     mkPoint 6 4; mkPoint 6 5; mkPoint 6 6].
Proof. reflexivity. Qed.

Example get_neighbors_radius_one :
  get_neighbors (mkPoint 0 0) 1
  = [mkPoint (-1) 0; mkPoint 0 (-1); mkPoint 0 1; mkPoint 1 0].
Proof. reflexivity. Qed.

Example json_dumps_scalars :
  json_dumps (PyList [PyInt (-3); PyNone; PyBool true; PyTuple [PyInt 7]])
  = "[-3, null, true, [7]]".
Proof. reflexivity. Qed.

Example Point_str_repr : Point_str (mkPoint 0 (-1)) = "Point(x=0, y=-1)".
Proof. reflexivity. Qed.

Example py_index_negative : py_index ["a"; "b"; "c"] (-1) = Some "c".
Proof. reflexivity. Qed.

Example py_index_out_of_range : py_index ["a"; "b"; "c"] (-4) = None.
Proof. reflexivity. Qed.

Example sample_witness_path :
  (Witness_path sample_witness).*1
  = [mkPoint 1 1; mkPoint 0 0; mkPoint 0 1; mkPoint 0 2; mkPoint 1 2].
Proof. by vm_compute. Qed.

Example sample_challenge_positions :
  Challenge_positions sample_challenge = [0; 3; 6].
Proof. by vm_compute. Qed.

Example sample_response_accepted :
  (response ← respond_to_challenge sample_protocol sample_witness
                 sample_challenge;
   Some (Response_revealed_steps response,
         verify_response sample_protocol sample_instance sample_challenge
           response))
  = Some ([(0, Some (mkPoint 1 1), Some "D");
           (3, Some (mkPoint 0 2), Some "C");
           (6, None, None)], true).
Proof. by vm_compute. Qed.

(** ** Tiling engine *)

Section tiling_properties.
Context `{Hashlib}.

Lemma all_identical_alt (ns : list string) :
  all_identical ns ↔ ∀ a b, a ∈ ns → b ∈ ns → a = b.
Proof.
  unfold all_identical. rewrite Forall_forall.
  setoid_rewrite Forall_forall. naive_solver.
Qed.

Lemma forallb_eq_head_identical (n0 : string) (ns : list string) :
  forallb (λ n, bool_decide (n = n0)) (n0 :: ns) = true
  ↔ all_identical (n0 :: ns).
Proof.
  rewrite forallb_forall, all_identical_alt. split.
  - intros Hall a b Ha%list_elem_of_In Hb%list_elem_of_In.
    apply Hall in Ha, Hb. apply bool_decide_eq_true in Ha, Hb. congruence.
  - intros Hid n Hn%list_elem_of_In. apply bool_decide_eq_true.
    apply Hid; [done | left].
Qed.

Lemma identical_not_A_and_B (ns : list string) :
  all_identical ns → ¬ ("A" ∈ ns ∧ "B" ∈ ns).
Proof.
  rewrite all_identical_alt. intros Hid [HA HB].
  by specialize (Hid _ _ HA HB).
Qed.

Lemma tile_label_spec_nth (value : Z) :
  nth (Z.to_nat (value `mod` Z.of_nat (length TILE_TYPES))) TILE_TYPES EmptyString
  = tile_label_spec value.
Proof.
  unfold tile_label_spec. change (Z.of_nat (length TILE_TYPES)) with 6.
  generalize (Z.to_nat (value `mod` 6)). intros n.
  do 7 (destruct n as [|n]; [done|]). done.
Qed.

Lemma get_tile_type_rules (self : Tiling) (pos : Point) (neighbors : list string) :
  get_tile_type self pos (Some neighbors)
  = tile_label_spec
      (tile_rules_spec
         (hash_prefix_int (_hash_position self (Point_x pos) (Point_y pos)))
         neighbors).
Proof.
  unfold get_tile_type. rewrite tile_label_spec_nth. f_equal.
  unfold tile_rules_spec. destruct neighbors as [|n0 ns].
  - rewrite (bool_decide_eq_false_2 ("A" ∈ _ ∧ _))
      by (by intros [?%elem_of_nil _]).
    by rewrite bool_decide_eq_false_2 by (intros [? _]; simpl in *; lia).
  - set (l := n0 :: ns).
    assert (forallb (λ n, bool_decide (n = n0)) l
            = bool_decide (all_identical l)) as ->.
    { apply eq_true_iff_eq. rewrite bool_decide_eq_true.
      apply forallb_eq_head_identical. }
    rewrite !bool_decide_and.
    by destruct (Z.leb_spec 3 (Z.of_nat (length l)));
      [rewrite (bool_decide_eq_true_2 (3 ≤ _)) by lia
      |rewrite (bool_decide_eq_false_2 (3 ≤ _)) by lia].
Qed.

Lemma tile_label_spec_C_or_D (v : Z) :
  tile_label_spec (v `mod` 2 + 2) = "C" ∨ tile_label_spec (v `mod` 2 + 2) = "D".
Proof.
  unfold tile_label_spec.
  pose proof (Z.mod_pos_bound v 2).
  assert (v `mod` 2 = 0 ∨ v `mod` 2 = 1) as [->| ->] by lia; auto.
Qed.

(** C5.  Tile-rule composition: on every position and every supplied
    neighbour list, [get_tile_type] returns the alphabet entry at
    (value mod 6), where the value is the hash-derived base, incremented
    by rule 1 when at least three labels are supplied and all are
    identical, then overwritten by rule 2 with (value mod 2) + 2 when the
    same list holds both "A" and "B".  When rule 2 fires rule 1 cannot have
    fired, so the overwritten value is (base mod 2) + 2 for the original
    base, and the label is "C" or "D".  Without a neighbour list the label
    is the entry at (base mod 6).  The base is below 2^32. *)
Theorem tile_rule_composition (self : Tiling) (pos : Point)
    (neighbors : list string) :
  let base :=
    hash_prefix_int (_hash_position self (Point_x pos) (Point_y pos)) in
  0 ≤ base < 2 ^ 32
  ∧ get_tile_type self pos (Some neighbors)
    = tile_label_spec (tile_rules_spec base neighbors)
  ∧ get_tile_type self pos None = tile_label_spec base
  ∧ ("A" ∈ neighbors → "B" ∈ neighbors →
     tile_rules_spec base neighbors = base `mod` 2 + 2
     ∧ (get_tile_type self pos (Some neighbors) = "C"
        ∨ get_tile_type self pos (Some neighbors) = "D")).
Proof.
  intros base. split; [|split_and!].
  - unfold base, hash_prefix_int, _hash_position.
    set (d := md5_digest _).
    assert ((d `mod` 2 ^ 128) `div` 2 ^ 96 < 2 ^ 32)%N as Hlt.
    { apply N.Div0.div_lt_upper_bound.
      change (2 ^ 96 * 2 ^ 32)%N with (2 ^ 128)%N. by apply N.mod_lt. }
    split; [apply N2Z.is_nonneg | by apply N2Z.inj_lt in Hlt].
  - apply get_tile_type_rules.
  - unfold get_tile_type. by rewrite tile_label_spec_nth.
  - intros HA HB.
    assert (tile_rules_spec base neighbors = base `mod` 2 + 2) as Heq.
    { unfold tile_rules_spec.
      rewrite (bool_decide_eq_true_2 ("A" ∈ _ ∧ _)) by done.
      rewrite bool_decide_eq_false_2; [done|].
      intros [_ Hid]. by apply (identical_not_A_and_B neighbors). }
    split; [done|]. rewrite get_tile_type_rules. fold base. rewrite Heq.
    apply tile_label_spec_C_or_D.
Qed.
End tiling_properties.

Lemma tile_rule_composition_witness :
  let base := hash_prefix_int (@_hash_position toy_hashlib (mkTiling 42) 2 1) in
  "A" ∈ ["B"; "A"; "A"] ∧ "B" ∈ ["B"; "A"; "A"]
  ∧ tile_rules_spec base ["B"; "A"; "A"] = base `mod` 2 + 2
  ∧ (@get_tile_type toy_hashlib (mkTiling 42) (mkPoint 2 1)
       (Some ["B"; "A"; "A"]) = "C"
     ∨ @get_tile_type toy_hashlib (mkTiling 42) (mkPoint 2 1)
         (Some ["B"; "A"; "A"]) = "D").
Proof.
  assert ("A" ∈ ["B"; "A"; "A"]) as HA
    by (apply (bool_decide_unpack _); vm_compute; exact I).
  assert ("B" ∈ ["B"; "A"; "A"]) as HB
    by (apply (bool_decide_unpack _); vm_compute; exact I).
  split_and!; [done|done|..];
    apply (@tile_rule_composition toy_hashlib (mkTiling 42) (mkPoint 2 1)
             ["B"; "A"; "A"]); done.
Defined.

Section region_properties.
Context `{Hashlib}.

Lemma dom_place_row (self : Tiling) (origin : Point) (y : Z)
    (xs : list Z) (tiles : gmap Point string) :
  dom (foldl (place_tile self origin y) tiles xs)
  = dom tiles
    ∪ list_to_set ((λ x, mkPoint (Point_x origin + x) (Point_y origin + y)) <$> xs).
Proof.
  revert tiles. induction xs as [|x xs IH]; intros tiles; simpl.
  - set_solver.
  - rewrite IH. unfold place_tile. rewrite dom_insert_L. set_solver.
Qed.

Lemma dom_place_rows (self : Tiling) (origin : Point) (width : Z)
    (ys : list Z) (tiles : gmap Point string) :
  dom (foldl (place_row self origin width) tiles ys)
  = dom tiles
    ∪ list_to_set
        (y ← ys; x ← seqZ 0 width;
         [mkPoint (Point_x origin + x) (Point_y origin + y)]).
Proof.
  revert tiles. induction ys as [|y ys IH]; intros tiles; csimpl.
  - set_solver.
  - rewrite IH. unfold place_row. rewrite dom_place_row.
    rewrite list_to_set_app_L.
    replace (x ← seqZ 0 width;
             [mkPoint (Point_x origin + x) (Point_y origin + y)])
      with ((λ x, mkPoint (Point_x origin + x) (Point_y origin + y))
              <$> seqZ 0 width).
    + set_solver.
    + generalize (seqZ 0 width). intros l.
      induction l; csimpl; [done | by f_equal].
Qed.

Lemma dom_generate_region (self : Tiling) (width height : Z)
    (origin : option Point) :
  dom (generate_region self width height origin)
  = list_to_set (region_points (default (mkPoint 0 0) origin) width height).
Proof.
  unfold generate_region, region_points. rewrite dom_place_rows.
  rewrite dom_empty_L. set_solver.
Qed.

Lemma elem_of_region_points (origin : Point) (width height : Z) (p : Point) :
  p ∈ region_points origin width height
  ↔ Point_x origin ≤ Point_x p < Point_x origin + width
    ∧ Point_y origin ≤ Point_y p < Point_y origin + height.
Proof.
  unfold region_points. rewrite list_elem_of_bind.
  setoid_rewrite list_elem_of_bind. setoid_rewrite elem_of_seqZ.
  setoid_rewrite list_elem_of_singleton. split.
  - intros (y & (x & -> & ?) & ?). simpl. lia.
  - intros [? ?]. exists (Point_y p - Point_y origin). split; [|lia].
    exists (Point_x p - Point_x origin). split; [|lia].
    destruct p as [a b]. simpl. f_equal; lia.
Qed.

Lemma NoDup_region_points (origin : Point) (width height : Z) :
  NoDup (region_points origin width height).
Proof.
  unfold region_points. apply NoDup_bind; [| |apply NoDup_seqZ].
  - intros y1 y2 p _ _ (x1 & ->%list_elem_of_singleton & _)%list_elem_of_bind
      (x2 & [=]%list_elem_of_singleton & _)%list_elem_of_bind. lia.
  - intros y _. apply NoDup_bind; [| |apply NoDup_seqZ].
    + intros x1 x2 p _ _ ->%list_elem_of_singleton [=]%list_elem_of_singleton.
      lia.
    + intros x _. apply NoDup_singleton.
Qed.

Lemma length_region_points (origin : Point) (width height : Z) :
  length (region_points origin width height)
  = (Z.to_nat height * Z.to_nat width)%nat.
Proof.
  unfold region_points. rewrite <- (length_seqZ 0 height).
  generalize (seqZ 0 height). intros ys.
  induction ys as [|y ys IH]; csimpl; [done|].
  rewrite length_app, IH. f_equal.
  rewrite <- (length_seqZ 0 width). generalize (seqZ 0 width). intros xs.
  induction xs; csimpl; [done | by f_equal].
Qed.

Lemma size_generate_region (self : Tiling) (width height : Z)
    (origin : option Point) :
  size (generate_region self width height origin)
  = (Z.to_nat height * Z.to_nat width)%nat.
Proof.
  rewrite <- size_dom, dom_generate_region.
  rewrite size_list_to_set by apply NoDup_region_points.
  apply length_region_points.
Qed.

(** C8.  Tiling coverage: for [width >= 0] and [height >= 0],
    [generate_region] with the default origin returns a mapping with
    exactly [width * height] entries whose keys are exactly the grid
    points [(x, y)] with [0 <= x < width] and [0 <= y < height]; hence
    the instance returned by [create_instance size], [size >= 0], has
    exactly [size * size] tiles. *)
Theorem tiling_coverage (self : Tiling) (protocol : SpectralProtocol)
    (width height size : Z) :
  0 ≤ width → 0 ≤ height → 0 ≤ size →
  let tiles := generate_region self width height None in
  Z.of_nat (stdpp.base.size tiles) = width * height
  ∧ (∀ p : Point,
       is_Some (tiles !! p)
       ↔ 0 ≤ Point_x p < width ∧ 0 ≤ Point_y p < height)
  ∧ Z.of_nat (stdpp.base.size (Instance_tiles (create_instance protocol size)))
    = size * size.
Proof.
  intros Hw Hh Hs tiles. split_and!.
  - unfold tiles. rewrite size_generate_region. lia.
  - intros p. rewrite <- elem_of_dom. unfold tiles.
    rewrite dom_generate_region, elem_of_list_to_set, elem_of_region_points.
    simpl. lia.
  - unfold create_instance. simpl. rewrite size_generate_region. lia.
Qed.
End region_properties.

Lemma tiling_coverage_witness :
  (0 ≤ 3 ∧ 0 ≤ 2 ∧ 0 ≤ 5) ∧
  let tiles := @generate_region toy_hashlib (mkTiling 42) 3 2 None in
  Z.of_nat (size tiles) = 3 * 2
  ∧ (∀ p : Point,
       is_Some (tiles !! p) ↔ 0 ≤ Point_x p < 3 ∧ 0 ≤ Point_y p < 2)
  ∧ Z.of_nat (size (Instance_tiles
                      (@create_instance toy_hashlib
                         (SpectralProtocol_init 0 (Some 42)) 5)))
    = 5 * 5.
Proof.
  split; [lia|].
  apply (@tiling_coverage toy_hashlib (mkTiling 42)
           (SpectralProtocol_init 0 (Some 42)) 3 2 5); lia.
Defined.

(** ** Commitment scheme *)

Lemma string_app_length (s t : string) :
  String.length (s +:+ t) = (String.length s + String.length t)%nat.
Proof. induction s as [|a s IH]; simpl; [done | by rewrite IH]. Qed.

Lemma string_app_inv_tail (s s' t : string) : s +:+ t = s' +:+ t → s = s'.
Proof.
  revert s'. induction s as [|a s IH]; intros [|a' s'] Heq; simpl in *.
  - done.
  - apply (f_equal String.length) in Heq. simpl in Heq.
    rewrite !string_app_length in Heq. simpl in Heq. lia.
  - apply (f_equal String.length) in Heq. simpl in Heq.
    rewrite !string_app_length in Heq. simpl in Heq. lia.
  - injection Heq as -> Heq. f_equal. by apply IH.
Qed.

Section commitment_properties.
Context `{Hashlib}.

Lemma create_with_nonce (token_hex16 : string) (value : PyValue)
    (nonce : string) :
  Commitment.create token_hex16 value (Some nonce)
  = (sha256_hexdigest (commitment_preimage value nonce), nonce).
Proof. by destruct value. Qed.

Lemma create_fresh_nonce (token_hex16 : string) (value : PyValue) :
  Commitment.create token_hex16 value None
  = (sha256_hexdigest (commitment_preimage value token_hex16), token_hex16).
Proof. by destruct value. Qed.

Lemma verify_true_iff (commitment : string) (value : PyValue) (nonce : string) :
  Commitment.verify commitment value nonce = true
  ↔ commitment = sha256_hexdigest (commitment_preimage value nonce).
Proof.
  unfold Commitment.verify. rewrite create_with_nonce.
  apply bool_decide_eq_true.
Qed.

(** A string and the integer it spells commit to the same digest under
    every nonce and every hash: the string passes through unchanged and
    the integer is rendered by [json.dumps]. *)
Lemma verify_str_int_confusion (token_hex16 nonce : string) :
  Commitment.verify
    (Commitment.create token_hex16 (PyStr "1") (Some nonce)).1
    (PyInt 1) nonce = true.
Proof. apply verify_true_iff. by rewrite create_with_nonce. Qed.

(** C6 (amended).  [verify c v n] is true iff [c] is the commitment
    component of [create v n].  From an accepting triple, changing [c]
    alone makes it false; changing [n] alone makes it false when SHA-256
    does not collide on the two hashed strings; changing [v] alone makes
    it false when the new value serializes differently and SHA-256 does
    not collide on the two hashed strings. *)
Theorem commitment_correctness (token_hex16 c : string) (v : PyValue)
    (n : string) :
  (Commitment.verify c v n = true
   ↔ c = (Commitment.create token_hex16 v (Some n)).1)
  ∧ (Commitment.verify c v n = true →
     (∀ c', c' ≠ c → Commitment.verify c' v n = false)
     ∧ (∀ n', n' ≠ n →
          no_collision (commitment_preimage v n') (commitment_preimage v n) →
          Commitment.verify c v n' = false)
     ∧ (∀ v', serialized_value v' ≠ serialized_value v →
          no_collision (commitment_preimage v' n) (commitment_preimage v n) →
          Commitment.verify c v' n = false)).
Proof.
  split.
  - rewrite verify_true_iff. by rewrite create_with_nonce.
  - intros Hacc%verify_true_iff. split_and!.
    + intros c' Hc'. apply not_true_is_false.
      rewrite verify_true_iff. congruence.
    + intros n' Hn' Hcoll. apply not_true_is_false.
      rewrite verify_true_iff. intros Hc'. apply Hn'.
      unfold no_collision, commitment_preimage in *.
      assert (serialized_value v +:+ "||" +:+ n'
              = serialized_value v +:+ "||" +:+ n) as Heq
        by (apply Hcoll; congruence).
      by do 2 apply (inj (String.app _)) in Heq.
    + intros v' Hv' Hcoll. apply not_true_is_false.
      rewrite verify_true_iff. intros Hc'. apply Hv'.
      unfold no_collision, commitment_preimage in *.
      apply (string_app_inv_tail _ _ ("||" +:+ n)).
      apply Hcoll. congruence.
Qed.
End commitment_properties.

Lemma commitment_correctness_witness :
  let c := (@Commitment.create toy_hashlib "00" (PyStr "path") (Some "ab")).1 in
  @Commitment.verify toy_hashlib c (PyStr "path") "ab" = true
  ∧ (∀ c', c' ≠ c → @Commitment.verify toy_hashlib c' (PyStr "path") "ab" = false)
  ∧ (∀ n', n' ≠ "ab" →
       @no_collision toy_hashlib (commitment_preimage (PyStr "path") n')
         (commitment_preimage (PyStr "path") "ab") →
       @Commitment.verify toy_hashlib c (PyStr "path") n' = false)
  ∧ (∀ v', serialized_value v' ≠ serialized_value (PyStr "path") →
       @no_collision toy_hashlib (commitment_preimage v' "ab")
         (commitment_preimage (PyStr "path") "ab") →
       @Commitment.verify toy_hashlib c v' "ab" = false).
Proof.
  intros c.
  assert (@Commitment.verify toy_hashlib c (PyStr "path") "ab" = true) as Hacc
    by (vm_compute; reflexivity).
  split; [exact Hacc|].
  exact (proj2 (@commitment_correctness toy_hashlib "00" c (PyStr "path") "ab")
           Hacc).
Defined.

(** C6, as stated, fails: the string "1" and the integer 1 are different
    values, yet the commitment of the one opens to the other under the same
    nonce. *)
Lemma commitment_value_change_counterexample :
  let c := (@Commitment.create toy_hashlib "00" (PyStr "1") (Some "ab")).1 in
  @Commitment.verify toy_hashlib c (PyStr "1") "ab" = true
  ∧ PyInt 1 ≠ PyStr "1"
  ∧ @Commitment.verify toy_hashlib c (PyInt 1) "ab" = true.
Proof. split_and!; [by vm_compute | discriminate | by vm_compute]. Qed.

(** ** Protocol: the witness path *)

Section path_properties.
Context `{Hashlib}.

Lemma path_ok_nil (tiles : gmap Point string) : path_ok tiles [].
Proof. split; [constructor | by intros ?? ?%elem_of_nil]. Qed.

Lemma path_ok_snoc (tiles : gmap Point string) path current tile :
  path_ok tiles path → current ∉ path.*1 → tiles !! current = Some tile →
  path_ok tiles (path ++ [(current, tile)]).
Proof.
  intros [Hnd Htiles] Hfresh Hcur. split.
  - rewrite fmap_app. apply NoDup_app. split_and!; [done| |].
    + intros p Hp ->%list_elem_of_singleton. done.
    + apply NoDup_singleton.
  - intros pos t [Hin|[= -> ->]%list_elem_of_singleton]%elem_of_app; auto.
Qed.

Lemma _find_path_loop_ok (tiles : gmap Point string) (fuel : nat)
    (path : list (Point * string)) (current : Point) (visited : gset Point) :
  path_ok tiles path → (∀ pos, pos ∈ path.*1 → pos ∈ visited) →
  path_ok tiles (_find_path_loop tiles fuel path current visited).
Proof.
  revert path current visited.
  induction fuel as [|fuel IH]; intros path current visited Hok Hvis; simpl.
  { done. }
  destruct (tiles !! current) as [tile|] eqn:Hcur; [|done].
  case_bool_decide as Hseen; [done|].
  assert (path_ok tiles (path ++ [(current, tile)])) as Hok'.
  { apply path_ok_snoc; [done| |done]. intros Hin. by apply Hseen, Hvis. }
  destruct (filter _ _) as [|n valid_next] eqn:Hvalid; [done|].
  destruct (merge_sort _ _) as [|next rest]; [done|].
  apply IH; [done|]. intros pos. rewrite fmap_app, elem_of_app. simpl.
  rewrite list_elem_of_singleton. set_solver.
Qed.

Lemma _find_path_loop_length (tiles : gmap Point string) (fuel : nat)
    (path : list (Point * string)) (current : Point) (visited : gset Point) :
  (length (_find_path_loop tiles fuel path current visited)
   ≤ length path + fuel)%nat.
Proof.
  revert path current visited.
  induction fuel as [|fuel IH]; intros path current visited; simpl; [lia|].
  destruct (tiles !! current) as [tile|]; [|lia].
  case_bool_decide; [lia|].
  destruct (filter _ _) as [|n valid_next];
    [rewrite length_app; simpl; lia|].
  destruct (merge_sort _ _) as [|next rest];
    [rewrite length_app; simpl; lia|].
  etrans; [apply IH|]. rewrite length_app. simpl. lia.
Qed.

Lemma path_ok_length (tiles : gmap Point string) (path : list (Point * string)) :
  path_ok tiles path → (length path ≤ size tiles)%nat.
Proof.
  intros [Hnd Htiles].
  rewrite <- (length_fmap fst path), <- (size_list_to_set (C:=gset Point)) by done.
  rewrite <- size_dom. apply subseteq_size.
  intros pos [[pos' tile] [-> Hin]]%elem_of_list_to_set%list_elem_of_fmap.
  apply elem_of_dom. simpl. rewrite (Htiles _ _ Hin). by eexists.
Qed.

Lemma _find_path_ok (self : SpectralProtocol) (tiles : gmap Point string)
    (start : Point) (length : Z) :
  path_ok tiles (_find_path self tiles start length).
Proof.
  apply _find_path_loop_ok; [apply path_ok_nil|]. by intros ? ?%elem_of_nil.
Qed.

Lemma _find_path_absent_start (self : SpectralProtocol)
    (tiles : gmap Point string) (start : Point) (length : Z) :
  tiles !! start = None → _find_path self tiles start length = [].
Proof.
  intros Hstart. unfold _find_path.
  destruct (Z.to_nat length); simpl; [done|]. by rewrite Hstart.
Qed.

Lemma generate_witness_path (self : SpectralProtocol) (random_choice : nat)
    (token_hex16 : string) (instance : Instance) (path_length : Z)
    (start : option Point) (witness : Witness) :
  generate_witness self random_choice token_hex16 instance path_length start
  = Some witness →
  ∃ start', Witness_path witness
            = _find_path self (Instance_tiles instance) start' path_length
    ∧ (∀ p, start = Some p → start' = p)
    ∧ Witness_nonce witness = token_hex16.
Proof.
  unfold generate_witness. intros Hgen.
  destruct (match start with Some _ => _ | None => _ end) as [start'|] eqn:Hs;
    simpl in Hgen; [|done].
  injection Hgen as <-. simpl.
  exists start'. split_and!; [done| |done].
  intros p ->. by injection Hs.
Qed.

(** C7.  Witness-path invariant: for every instance, path length and start
    point, the path of a witness returned by [generate_witness] holds no
    point twice, and every [(point, label)] entry of it has [point] a key
    of [instance.tiles] with [instance.tiles[point] = label]. *)
Theorem witness_path_invariant (self : SpectralProtocol) (random_choice : nat)
    (token_hex16 : string) (instance : Instance) (path_length : Z)
    (start : option Point) (witness : Witness) :
  0 ≤ path_length →
  generate_witness self random_choice token_hex16 instance path_length start
  = Some witness →
  NoDup (Witness_path witness).*1
  ∧ ∀ pos tile, (pos, tile) ∈ Witness_path witness →
                Instance_tiles instance !! pos = Some tile.
Proof.
  intros _ (start' & -> & _)%generate_witness_path.
  destruct (_find_path_ok self (Instance_tiles instance) start' path_length).
  done.
Qed.

(** C10.  Path-length bound: for every tiles mapping, start point and
    requested length [L >= 0], the path returned by [_find_path] has at
    most [min L (len tiles)] entries and is empty when the start point is
    not a key of [tiles]; the same holds of the witness path of
    [generate_witness]. *)
Theorem path_length_bound (self : SpectralProtocol)
    (tiles : gmap Point string) (start : Point) (L : Z) :
  0 ≤ L →
  (Z.of_nat (length (_find_path self tiles start L))
   ≤ Z.min L (Z.of_nat (size tiles))
   ∧ (tiles !! start = None → _find_path self tiles start L = []))
  ∧ ∀ random_choice token_hex16 instance start_opt witness,
      Instance_tiles instance = tiles →
      generate_witness self random_choice token_hex16 instance L start_opt
      = Some witness →
      Z.of_nat (length (Witness_path witness))
      ≤ Z.min L (Z.of_nat (size tiles))
      ∧ (start_opt = Some start → tiles !! start = None →
         Witness_path witness = []).
Proof.
  intros HL.
  assert (∀ start', Z.of_nat (length (_find_path self tiles start' L))
                    ≤ Z.min L (Z.of_nat (size tiles))) as Hlen.
  { intros start'.
    pose proof (path_ok_length _ _ (_find_path_ok self tiles start' L)).
    pose proof (_find_path_loop_length tiles (Z.to_nat L) [] start' ∅) as Hl.
    fold (_find_path self tiles start' L) in Hl. simpl in Hl. lia. }
  split; [split|].
  - done.
  - apply _find_path_absent_start.
  - intros random_choice token_hex16 instance start_opt witness <-
      (start' & -> & Hs & _)%generate_witness_path.
    split; [done|]. intros ->. rewrite (Hs start eq_refl).
    apply _find_path_absent_start.
Qed.
End path_properties.

(** ** Protocol: challenges *)

Section challenge_properties.
Implicit Types (randbelow : nat → Z) (positions : list Z) (ks : list nat).

Lemma draw_positions_NoDup randbelow ks positions :
  NoDup positions → NoDup (foldl (draw_position randbelow) positions ks).
Proof.
  revert positions. induction ks as [|k ks IH]; intros positions Hnd; simpl.
  { done. }
  apply IH. unfold draw_position. case_bool_decide as Hin; [done|].
  apply NoDup_app. split_and!; [done| |apply NoDup_singleton].
  by intros x Hx ->%list_elem_of_singleton.
Qed.

Lemma draw_positions_elem_of randbelow ks positions x :
  x ∈ foldl (draw_position randbelow) positions ks
  ↔ x ∈ positions ∨ ∃ k, k ∈ ks ∧ randbelow k = x.
Proof.
  revert positions. induction ks as [|k ks IH]; intros positions; simpl.
  { split; [auto|]. by intros [?|(k & ?%elem_of_nil & _)]. }
  rewrite IH. unfold draw_position. setoid_rewrite elem_of_cons.
  case_bool_decide as Hin.
  - naive_solver.
  - rewrite elem_of_app, list_elem_of_singleton. naive_solver.
Qed.

Lemma draw_positions_length randbelow ks positions :
  (length (foldl (draw_position randbelow) positions ks)
   ≤ length positions + length ks)%nat.
Proof.
  revert positions. induction ks as [|k ks IH]; intros positions; simpl.
  { lia. }
  etrans; [apply IH|]. unfold draw_position.
  case_bool_decide; rewrite ?length_app; simpl; lia.
Qed.

Lemma create_challenge_elem_of (self : SpectralProtocol) (token_hex8 : string)
    randbelow (instance : Instance) (commitment : string)
    (num_challenges : option Z) (x : Z) :
  x ∈ Challenge_positions
        (create_challenge self token_hex8 randbelow instance commitment
           num_challenges)
  ↔ ∃ k, (k < Z.to_nat (Z.min (default 3%Z num_challenges)
                          (Instance_size instance * Instance_size instance)%Z))%nat
         ∧ randbelow k = x.
Proof.
  unfold create_challenge. simpl. rewrite merge_sort_Permutation.
  rewrite draw_positions_elem_of. setoid_rewrite elem_of_seq. split.
  - intros [?%elem_of_nil|(k & ? & ?)]; [done|]. exists k. split; [lia|done].
  - intros (k & ? & ?). right. exists k. split; [lia|done].
Qed.

(** C4 (amended).  For an instance of size [s >= 1], [n >= 1] and every
    outcome of the draws, [create_challenge] returns a challenge whose
    positions are distinct integers of [0, s*s), sorted ascending, at
    least one and at most [min n (s*s)] of them: exactly the values drawn
    in the [min n (s*s)] draws, a repeated value being kept once and not
    drawn again.  The commitment is copied into the challenge. *)
Theorem challenge_positions (self : SpectralProtocol) (token_hex8 : string)
    randbelow (instance : Instance) (commitment : string) (n : Z) :
  let s := Instance_size instance in
  let draws := Z.to_nat (Z.min n (s * s)) in
  1 ≤ s → 1 ≤ n →
  (∀ k, (k < draws)%nat → 0 ≤ randbelow k < s * s) →
  let challenge :=
    create_challenge self token_hex8 randbelow instance commitment (Some n) in
  NoDup (Challenge_positions challenge)
  ∧ Sorted Z.le (Challenge_positions challenge)
  ∧ (∀ x, x ∈ Challenge_positions challenge → 0 ≤ x < s * s)
  ∧ (∀ x, x ∈ Challenge_positions challenge
          ↔ ∃ k, (k < draws)%nat ∧ randbelow k = x)
  ∧ 1 ≤ Z.of_nat (length (Challenge_positions challenge)) ≤ Z.min n (s * s)
  ∧ Challenge_commitment challenge = commitment.
Proof.
  intros s draws Hs Hn Hrange challenge.
  pose proof (create_challenge_elem_of self token_hex8 randbelow instance
                commitment (Some n)) as Helem.
  fold challenge in Helem. simpl in Helem. fold s in Helem. fold draws in Helem.
  set (positions := foldl (draw_position randbelow) [] (seq 0 draws)).
  assert (Challenge_positions challenge = merge_sort Z.le positions) as Hpos
    by done.
  split_and!.
  - rewrite Hpos, merge_sort_Permutation.
    apply draw_positions_NoDup. constructor.
  - rewrite Hpos. apply (Sorted_merge_sort Z.le).
  - intros x (k & Hk & <-)%Helem. by apply Hrange.
  - done.
  - assert (0 < draws)%nat by (unfold draws; nia).
    assert (randbelow 0%nat ∈ Challenge_positions challenge) as Hin
      by (apply Helem; by exists 0%nat).
    destruct (Challenge_positions challenge); [by apply elem_of_nil in Hin|].
    simpl. lia.
  - pose proof (draw_positions_length randbelow (seq 0 draws) []) as Hlen.
    fold positions in Hlen. rewrite length_seq in Hlen. simpl in Hlen.
    rewrite Hpos, merge_sort_Permutation. unfold draws in Hlen. nia.
  - done.
Qed.
End challenge_properties.

Lemma challenge_positions_witness :
  let instance :=
    @create_instance toy_hashlib (SpectralProtocol_init 0 (Some 42)) 2 in
  let randbelow := λ k : nat, Z.of_nat k `mod` 2 in
  (1 ≤ 2 ∧ 1 ≤ 3 ∧ ∀ k, (k < 3)%nat → 0 ≤ randbelow k < 2 * 2)
  ∧ let challenge :=
      create_challenge (SpectralProtocol_init 0 (Some 42)) "c0ffee" randbelow
        instance "commitment" (Some 3) in
    NoDup (Challenge_positions challenge)
    ∧ Sorted Z.le (Challenge_positions challenge)
    ∧ (∀ x, x ∈ Challenge_positions challenge → 0 ≤ x < 2 * 2)
    ∧ (∀ x, x ∈ Challenge_positions challenge
            ↔ ∃ k, (k < 3)%nat ∧ randbelow k = x)
    ∧ 1 ≤ Z.of_nat (length (Challenge_positions challenge)) ≤ Z.min 3 (2 * 2)
    ∧ Challenge_commitment challenge = "commitment".
Proof.
  intros instance randbelow.
  assert (∀ k, (k < 3)%nat → 0 ≤ randbelow k < 2 * 2) as Hrange
    by (intros k Hk; unfold randbelow;
        pose proof (Z.mod_pos_bound (Z.of_nat k) 2); lia).
  split; [split_and!; [lia | lia | exact Hrange]|].
  apply (challenge_positions (SpectralProtocol_init 0 (Some 42)) "c0ffee"
           randbelow instance "commitment" 3); [simpl; lia | lia | exact Hrange].
Defined.

(** C4, as stated, fails: with size 2 and two challenges requested, two
    equal draws leave one position, not [min 2 (2*2) = 2]; the repeated
    draw is dropped and nothing is drawn in its place. *)
Lemma challenge_duplicate_draw_counterexample :
  let instance :=
    @create_instance toy_hashlib (SpectralProtocol_init 0 (Some 42)) 2 in
  let randbelow := λ _ : nat, 1 in
  let challenge :=
    create_challenge (SpectralProtocol_init 0 (Some 42)) "c0ffee" randbelow
      instance "commitment" (Some 2) in
  (1 ≤ Instance_size instance ∧ 1 ≤ 2 ∧ ∀ k : nat, 0 ≤ randbelow k < 2 * 2)
  ∧ Challenge_positions challenge = [1]
  ∧ Z.of_nat (length (Challenge_positions challenge)) ≠ Z.min 2 (2 * 2).
Proof. split_and!; [simpl; lia | lia | simpl; lia | by vm_compute | by vm_compute]. Qed.

(** ** Protocol: verification *)

Section verify_properties.
Implicit Types (steps : list (Z * option Point * option string))
  (revealed_map : gmap Z (option Point * option string)).

Lemma forallb_true_iff {A} (f : A → bool) (l : list A) :
  forallb f l = true ↔ ∀ x, x ∈ l → f x = true.
Proof. rewrite forallb_forall. by setoid_rewrite list_elem_of_In. Qed.

Lemma dom_record_steps steps revealed_map :
  dom (foldl record_step revealed_map steps)
  = dom revealed_map ∪ list_to_set steps.*1.*1.
Proof.
  revert revealed_map.
  induction steps as [|[[i pos] tile] steps IH]; intros m; simpl.
  - set_solver.
  - rewrite IH, dom_insert_L. set_solver.
Qed.

Lemma build_revealed_map_is_Some steps (i : Z) :
  is_Some (build_revealed_map steps !! i) ↔ i ∈ steps.*1.*1.
Proof.
  rewrite <- elem_of_dom. unfold build_revealed_map.
  rewrite dom_record_steps. set_solver.
Qed.

(** Two maps that agree outside the indices of [steps] agree once the
    steps are recorded. *)
Lemma record_steps_agree steps (m1 m2 : gmap Z (option Point * option string)) :
  (∀ i, i ∉ steps.*1.*1 → m1 !! i = m2 !! i) →
  foldl record_step m1 steps = foldl record_step m2 steps.
Proof.
  revert m1 m2.
  induction steps as [|[[k pos] tile] steps IH]; intros m1 m2 Hagree; simpl.
  - apply map_eq. intros i. apply Hagree. by intros ?%elem_of_nil.
  - apply IH. intros i Hi. destruct (decide (k = i)) as [->|Hne].
    + by rewrite !lookup_insert_eq.
    + rewrite !lookup_insert_ne by done. apply Hagree.
      simpl. rewrite elem_of_cons. naive_solver.
Qed.

(** What [verify_response] checks, as a proposition. *)
Lemma verify_response_true (self : SpectralProtocol) (instance : Instance)
    (challenge : Challenge) (response : Response) :
  let revealed_map := build_revealed_map (Response_revealed_steps response) in
  let n := Response_path_length response in
  verify_response self instance challenge response = true
  ↔ Response_challenge_id response = Challenge_challenge_id challenge
    ∧ Response_commitment response = Challenge_commitment challenge
    ∧ (∀ i, i ∈ Challenge_positions challenge → i < n →
            ∃ pos tile, revealed_map !! i = Some (pos, tile)
                        ∧ step_matches instance pos tile = true)
    ∧ (∀ i pos tile, revealed_map !! i = Some (pos, tile) → i < n →
            i ∈ Challenge_positions challenge
            ∧ step_matches instance pos tile = true)
    ∧ 0 ≤ n ≤ Z.of_nat (size (Instance_tiles instance)).
Proof.
  intros revealed_map n. unfold verify_response.
  fold revealed_map. fold n.
  case_bool_decide as Hid; [naive_solver|].
  case_bool_decide as Hcm; [naive_solver|].
  destruct (forallb _ (Challenge_positions challenge)) eqn:Hloop1; simpl.
  2:{ split; [done|]. intros (_ & _ & Hall & _).
      apply not_true_iff_false in Hloop1. destruct Hloop1.
      apply forallb_true_iff. intros i Hi. case_bool_decide as Hlt; [|done].
      destruct (Hall i Hi Hlt) as (pos & tile & -> & ?). done. }
  rewrite forallb_true_iff in Hloop1.
  destruct (forallb _ (map_to_list revealed_map)) eqn:Hloop2; simpl.
  2:{ split; [done|]. intros (_ & _ & _ & Hall & _).
      apply not_true_iff_false in Hloop2. destruct Hloop2.
      apply forallb_true_iff. intros [i [pos tile]] Hi%elem_of_map_to_list.
      case_bool_decide as Hlt; [|done].
      destruct (Hall i pos tile Hi Hlt) as [Hin ->].
      by rewrite bool_decide_eq_true_2. }
  rewrite forallb_true_iff in Hloop2.
  case_bool_decide as Hlen; [split; [done|lia]|].
  split; [intros _|done]. split_and!; [done|done| | |lia|lia].
  - intros i Hi Hlt. specialize (Hloop1 i Hi). simpl in Hloop1.
    rewrite bool_decide_eq_true_2 in Hloop1 by done.
    destruct (revealed_map !! i) as [[pos tile]|]; [|done]. eauto.
  - intros i pos tile Hi%elem_of_map_to_list Hlt.
    specialize (Hloop2 _ Hi). simpl in Hloop2.
    rewrite bool_decide_eq_true_2 in Hloop2 by done.
    apply andb_true_iff in Hloop2 as [Hin%bool_decide_eq_true ?]. done.
Qed.

(** C2.  Coverage exactness: a response that omits an index of
    [challenge.positions] below its [path_length], or that holds an entry
    whose index is below its [path_length] but is not in
    [challenge.positions], is rejected. *)
Theorem coverage_exactness (self : SpectralProtocol) (instance : Instance)
    (challenge : Challenge) (response : Response) :
  (∃ i, i ∈ Challenge_positions challenge
        ∧ i < Response_path_length response
        ∧ ∀ pos tile, (i, pos, tile) ∉ Response_revealed_steps response)
  ∨ (∃ i pos tile, (i, pos, tile) ∈ Response_revealed_steps response
                   ∧ i < Response_path_length response
                   ∧ i ∉ Challenge_positions challenge) →
  verify_response self instance challenge response = false.
Proof.
  intros Hbad. apply not_true_is_false.
  intros (_ & _ & Hloop1 & Hloop2 & _)%verify_response_true.
  destruct Hbad as [(i & Hin & Hlt & Hmissing)|(i & pos & tile & Hin & Hlt & Hextra)].
  - destruct (Hloop1 i Hin Hlt) as (pos & tile & Hlook & _).
    assert (i ∈ (Response_revealed_steps response).*1.*1) as Hi
      by (apply build_revealed_map_is_Some; by rewrite Hlook).
    apply list_elem_of_fmap in Hi as ([i' pos'] & -> & Hi).
    apply list_elem_of_fmap in Hi as ([[i'' pos''] tile''] & [= -> ->] & Hi).
    by apply (Hmissing pos'' tile'').
  - assert (is_Some (build_revealed_map (Response_revealed_steps response) !! i))
      as [[pos' tile'] Hlook].
    { apply build_revealed_map_is_Some.
      apply list_elem_of_fmap. exists (i, pos). split; [done|].
      apply list_elem_of_fmap. by exists (i, pos, tile). }
    by destruct (Hloop2 i pos' tile' Hlook Hlt).
Qed.

(** C9.  Nonce noninterference: two responses that differ in nothing but
    their nonce get the same verdict. *)
Theorem nonce_noninterference (self : SpectralProtocol) (instance : Instance)
    (challenge : Challenge) (challenge_id : string)
    steps (path_length : Z) (commitment nonce1 nonce2 : string) :
  verify_response self instance challenge
    (mkResponse challenge_id steps path_length commitment nonce1)
  = verify_response self instance challenge
      (mkResponse challenge_id steps path_length commitment nonce2).
Proof. reflexivity. Qed.

(** A step repeated in front of the steps of a response leaves the
    verdict unchanged: the dict comprehension keeps one entry per index. *)
Lemma repeated_step_same_verdict (self : SpectralProtocol)
    (instance : Instance) (challenge : Challenge) (challenge_id : string)
    steps (step : Z * option Point * option string)
    (path_length : Z) (commitment nonce : string) :
  step ∈ steps →
  verify_response self instance challenge
    (mkResponse challenge_id (step :: steps) path_length commitment nonce)
  = verify_response self instance challenge
      (mkResponse challenge_id steps path_length commitment nonce).
Proof.
  intros Hin. unfold verify_response. simpl.
  assert (build_revealed_map (step :: steps) = build_revealed_map steps) as ->;
    [|done].
  unfold build_revealed_map. simpl. apply record_steps_agree.
  intros i Hi. destruct step as [[k pos] tile]. simpl.
  rewrite lookup_insert_ne; [done|]. intros ->. apply Hi.
  apply list_elem_of_fmap. exists (i, pos). split; [done|].
  apply list_elem_of_fmap. by exists (i, pos, tile).
Qed.
End verify_properties.

(** ** Protocol: completeness *)

Section completeness.
Context `{Hashlib}.

Lemma py_index_in_range {A} (l : list A) (i : Z) :
  0 ≤ i < Z.of_nat (length l) → ∃ x, py_index l i = Some x ∧ x ∈ l.
Proof.
  intros Hi. unfold py_index. rewrite bool_decide_eq_true_2 by lia.
  destruct (lookup_lt_is_Some_2 l (Z.to_nat i)) as [x Hx]; [lia|].
  exists x. split; [done|]. by eapply list_elem_of_lookup_2.
Qed.

Lemma respond_to_challenge_honest (self : SpectralProtocol)
    (witness : Witness) (challenge : Challenge) :
  (∀ i, i ∈ Challenge_positions challenge → 0 ≤ i) →
  respond_to_challenge self witness challenge
  = Some (mkResponse (Challenge_challenge_id challenge)
            (reveal (Witness_path witness) <$> Challenge_positions challenge)
            (Z.of_nat (length (Witness_path witness)))
            (Witness_commitment witness) (Witness_nonce witness)).
Proof.
  intros Hpos. unfold respond_to_challenge.
  set (f := λ pos_idx : Z, _).
  assert (mapM f (Challenge_positions challenge)
          = Some (reveal (Witness_path witness) <$> Challenge_positions challenge))
    as ->; [|done].
  apply mapM_Some_2.
  induction (Challenge_positions challenge) as [|i ps IH]; csimpl.
  { constructor. }
  constructor; [|apply IH; intros; apply Hpos; by right].
  unfold f, reveal, reveal_value. case_bool_decide as Hlt; [|done].
  destruct (py_index_in_range (Witness_path witness) i) as ([pos tile] & -> & _).
  { split; [apply Hpos; by left | done]. }
  done.
Qed.

Lemma lookup_record_reveal (path : list (Point * string)) (ps : list Z)
    (m : gmap Z (option Point * option string)) (i : Z) :
  foldl record_step m (reveal path <$> ps) !! i
  = if bool_decide (i ∈ ps) then Some (reveal_value path i) else m !! i.
Proof.
  revert m. induction ps as [|k ps IH]; intros m; [done|].
  rewrite fmap_cons. cbn [foldl]. rewrite IH. rewrite (bool_decide_ext (i ∈ k :: ps) (i = k ∨ i ∈ ps))
    by apply elem_of_cons.
  destruct (decide (i ∈ ps)) as [Hin|Hin].
  - rewrite (bool_decide_eq_true_2 (i ∈ ps)) by done.
    by rewrite bool_decide_eq_true_2 by auto.
  - rewrite (bool_decide_eq_false_2 (i ∈ ps)) by done.
    unfold reveal, record_step. destruct (decide (i = k)) as [->|Hne].
    + rewrite bool_decide_eq_true_2 by auto.
      rewrite lookup_insert_eq. by destruct (reveal_value path k).
    + rewrite bool_decide_eq_false_2 by naive_solver.
      by rewrite lookup_insert_ne.
Qed.

Lemma reveal_value_matches (instance : Instance) (path : list (Point * string))
    (i : Z) :
  path_ok (Instance_tiles instance) path →
  0 ≤ i < Z.of_nat (length path) →
  step_matches instance (reveal_value path i).1 (reveal_value path i).2 = true.
Proof.
  intros [_ Htiles] Hi. unfold reveal_value.
  rewrite bool_decide_eq_true_2 by lia.
  destruct (py_index_in_range path i Hi) as ([pos tile] & -> & Hin). simpl.
  rewrite (Htiles _ _ Hin). by apply bool_decide_eq_true.
Qed.

(** An honest response to a challenge with no negative position is
    accepted whenever the path is a duplicate-free walk over tiles of the
    instance and the challenge carries the witness's commitment. *)
Lemma honest_response_accepted (self : SpectralProtocol) (instance : Instance)
    (witness : Witness) (challenge : Challenge) :
  path_ok (Instance_tiles instance) (Witness_path witness) →
  (∀ i, i ∈ Challenge_positions challenge → 0 ≤ i) →
  Challenge_commitment challenge = Witness_commitment witness →
  ∃ response,
    respond_to_challenge self witness challenge = Some response
    ∧ verify_response self instance challenge response = true.
Proof.
  intros Hok Hpos Hcm. eexists. split.
  { by apply respond_to_challenge_honest. }
  apply verify_response_true. simpl. split_and!; [done|done| | | |].
  - intros i Hi Hlt.
    exists (reveal_value (Witness_path witness) i).1,
      (reveal_value (Witness_path witness) i).2. split.
    + unfold build_revealed_map. rewrite lookup_record_reveal.
      rewrite bool_decide_eq_true_2 by done.
      by destruct (reveal_value (Witness_path witness) i).
    + apply reveal_value_matches; [done|]. split; [by apply Hpos | done].
  - intros i pos tile Hlook Hlt. unfold build_revealed_map in Hlook.
    rewrite lookup_record_reveal in Hlook.
    case_bool_decide as Hin; [|done]. split; [done|].
    injection Hlook as Hlook.
    pose proof (reveal_value_matches instance (Witness_path witness) i Hok) as Hm.
    rewrite Hlook in Hm. apply Hm. split; [by apply Hpos | done].
  - lia.
  - pose proof (path_ok_length _ _ Hok). lia.
Qed.

(** C1.  Completeness: for every instance produced by [create_instance],
    every witness produced from it by [generate_witness], whatever the
    path length and the start point, and every challenge produced from the
    instance and the witness's commitment by [create_challenge], whatever
    the draws, [respond_to_challenge] returns a response and
    [verify_response] accepts it. *)
Theorem completeness (self : SpectralProtocol) (size : Z)
    (random_choice : nat) (token_hex16 : string) (path_length : Z)
    (start : option Point) (witness : Witness)
    (token_hex8 : string) (randbelow : nat → Z) (num_challenges : option Z) :
  let instance := create_instance self size in
  0 ≤ path_length →
  generate_witness self random_choice token_hex16 instance path_length start
  = Some witness →
  (∀ k, (k < Z.to_nat (Z.min (default 3%Z num_challenges) (size * size)%Z))%nat →
        0 ≤ randbelow k < size * size) →
  let challenge :=
    create_challenge self token_hex8 randbelow instance
      (Witness_commitment witness) num_challenges in
  ∃ response,
    respond_to_challenge self witness challenge = Some response
    ∧ verify_response self instance challenge response = true.
Proof.
  intros instance _ (start' & Hpath & _)%generate_witness_path Hrange challenge.
  apply honest_response_accepted.
  - rewrite Hpath. apply _find_path_ok.
  - intros i (k & Hk & <-)%create_challenge_elem_of. by apply Hrange.
  - done.
Qed.
End completeness.

Lemma sample_witness_generated :
  @generate_witness toy_hashlib sample_protocol 0 "5eed" sample_instance 5
    (Some (mkPoint 1 1)) = Some sample_witness.
Proof. by vm_compute. Qed.

Lemma sample_randbelow_range (k : nat) : 0 ≤ sample_randbelow k < 3 * 3.
Proof. unfold sample_randbelow. pose proof (Z.mod_pos_bound (Z.of_nat k * 3) 9). lia. Qed.

Lemma completeness_witness :
  (0 ≤ 5
   ∧ @generate_witness toy_hashlib sample_protocol 0 "5eed" sample_instance 5
       (Some (mkPoint 1 1)) = Some sample_witness
   ∧ ∀ k : nat, 0 ≤ sample_randbelow k < 3 * 3)
  ∧ ∃ response,
      respond_to_challenge sample_protocol sample_witness sample_challenge
      = Some response
      ∧ verify_response sample_protocol sample_instance sample_challenge response
        = true.
Proof.
  split; [split_and!; [lia | apply sample_witness_generated
                       | apply sample_randbelow_range]|].
  apply (@completeness toy_hashlib sample_protocol 3 0%nat "5eed" 5
           (Some (mkPoint 1 1)) sample_witness "c0ffee" sample_randbelow None);
    [lia | apply sample_witness_generated
     | intros k _; apply sample_randbelow_range].
Defined.

Lemma witness_path_invariant_witness :
  (0 ≤ 5
   ∧ @generate_witness toy_hashlib sample_protocol 0 "5eed" sample_instance 5
       (Some (mkPoint 1 1)) = Some sample_witness)
  ∧ NoDup (Witness_path sample_witness).*1
  ∧ ∀ pos tile, (pos, tile) ∈ Witness_path sample_witness →
                Instance_tiles sample_instance !! pos = Some tile.
Proof.
  split; [split; [lia | apply sample_witness_generated]|].
  apply (@witness_path_invariant toy_hashlib sample_protocol 0%nat "5eed"
           sample_instance 5 (Some (mkPoint 1 1)) sample_witness);
    [lia | apply sample_witness_generated].
Defined.

Lemma path_length_bound_witness :
  0 ≤ 5
  ∧ Z.of_nat (length (_find_path sample_protocol (Instance_tiles sample_instance)
                        (mkPoint 1 1) 5))
    ≤ Z.min 5 (Z.of_nat (size (Instance_tiles sample_instance)))
  ∧ Z.of_nat (length (Witness_path sample_witness))
    ≤ Z.min 5 (Z.of_nat (size (Instance_tiles sample_instance))).
Proof.
  assert (0 ≤ 5) as H5 by lia.
  destruct (@path_length_bound toy_hashlib sample_protocol
              (Instance_tiles sample_instance) (mkPoint 1 1) 5 H5)
    as [[Hlen _] Hwit].
  split_and!; [exact H5 | exact Hlen|].
  exact (proj1 (Hwit 0%nat "5eed" sample_instance (Some (mkPoint 1 1))
                  sample_witness eq_refl sample_witness_generated)).
Defined.

Lemma coverage_exactness_witness :
  let challenge := mkChallenge "c0ffee" [0; 3] "commitment" in
  let response :=
    mkResponse "c0ffee" [(0, Some (mkPoint 1 1), Some "D")] 5 "commitment"
      "5eed" in
  (3 ∈ Challenge_positions challenge
   ∧ 3 < Response_path_length response
   ∧ ∀ pos tile, (3, pos, tile) ∉ Response_revealed_steps response)
  ∧ verify_response sample_protocol sample_instance challenge response = false.
Proof.
  intros challenge response.
  assert (3 ∈ Challenge_positions challenge
          ∧ 3 < Response_path_length response
          ∧ ∀ pos tile, (3, pos, tile) ∉ Response_revealed_steps response)
    as Homit.
  { split_and!; [simpl; set_solver | simpl; lia|].
    intros pos tile [=]%list_elem_of_singleton. }
  split; [exact Homit|].
  apply (coverage_exactness sample_protocol sample_instance challenge response).
  left. exists 3. exact Homit.
Defined.

(** C3, on the code: a response that reveals the one challenged, in-bounds
    index twice, both times with the step the instance holds, is accepted;
    so is one whose first copy names a tile the instance does not hold. *)
Theorem duplicate_steps_accepted :
  let instance :=
    mkInstance {[ mkPoint 0 0 := "A" ]} 1 42 in
  let challenge := mkChallenge "c0ffee" [0] "commitment" in
  verify_response sample_protocol instance challenge
    (mkResponse "c0ffee"
       [(0, Some (mkPoint 0 0), Some "A"); (0, Some (mkPoint 0 0), Some "A")]
       1 "commitment" "5eed") = true
  ∧ verify_response sample_protocol instance challenge
      (mkResponse "c0ffee"
         [(0, Some (mkPoint 0 0), Some "X"); (0, Some (mkPoint 0 0), Some "A")]
         1 "commitment" "5eed") = true.
Proof. split; by vm_compute. Qed.

(** * Further properties of the code *)

(** ** Neighbourhoods *)

Section neighbor_properties.


Lemma elem_of_unit_range (d : Z) : d ∈ [-1; 0; 1] ↔ -1 ≤ d ≤ 1.
Proof. rewrite !elem_of_cons, elem_of_nil. lia. Qed.

Lemma elem_of_get_neighbors (center : Point) (radius : Q) (n : Point) :
  n ∈ get_neighbors center radius
  ↔ n ≠ center
    ∧ -1 ≤ Point_x n - Point_x center ≤ 1
    ∧ -1 ≤ Point_y n - Point_y center ≤ 1
    ∧ distance_to_le center n radius = true.
Proof.
  unfold get_neighbors. rewrite list_elem_of_bind.
  setoid_rewrite list_elem_of_bind. setoid_rewrite elem_of_unit_range. split.
  - intros (dx & (dy & Hn & Hdy) & Hdx).
    destruct (bool_decide (dx = 0) && bool_decide (dy = 0)) eqn:Hzero;
      [by apply elem_of_nil in Hn|].
    destruct (distance_to_le _ _ _) eqn:Hdist; [|by apply elem_of_nil in Hn].
    apply list_elem_of_singleton in Hn as ->.
    split_and!; [|simpl; lia..|done].
    intros Heq. pose proof (f_equal Point_x Heq) as Hx.
    pose proof (f_equal Point_y Heq) as Hy. simpl in Hx, Hy.
    apply andb_false_iff in Hzero as [Hz|Hz]; apply bool_decide_eq_false in Hz; lia.
  - intros (Hne & Hx & Hy & Hdist).
    exists (Point_x n - Point_x center). split; [|done].
    exists (Point_y n - Point_y center). split; [|done].
    assert (mkPoint (Point_x center + (Point_x n - Point_x center))
              (Point_y center + (Point_y n - Point_y center)) = n) as Hn.
    { destruct n. simpl. f_equal; lia. }
    rewrite Hn, Hdist.
    destruct (bool_decide _ && bool_decide _) eqn:Hzero; [|by left].
    apply andb_true_iff in Hzero as [Hzx%bool_decide_eq_true Hzy%bool_decide_eq_true].
    destruct Hne. destruct n, center. simpl in *. f_equal; lia.
Qed.



Lemma get_neighbors_sym (center n : Point) (radius : Q) :
  n ∈ get_neighbors center radius → center ∈ get_neighbors n radius.
Proof.
  rewrite !elem_of_get_neighbors. intros (Hne & Hx & Hy & Hdist).
  split_and!; [done|lia..|].
  unfold distance_to_le in *.
  replace ((Point_x n - Point_x center) ^ 2 + (Point_y n - Point_y center) ^ 2)
    with ((Point_x center - Point_x n) ^ 2 + (Point_y center - Point_y n) ^ 2);
    [done|]. rewrite !Z.pow_2_r. lia.
Qed.


End neighbor_properties.

(** ** Tile labels and regions *)

Section label_properties.
Context `{Hashlib}.

Lemma tile_label_spec_valid (value : Z) : tile_label_spec value ∈ TILE_TYPES.
Proof.
  unfold tile_label_spec. pose proof (Z.mod_pos_bound value 6) as Hb.
  destruct (TILE_TYPES !! Z.to_nat (value `mod` 6)) as [t|] eqn:Hl.
  - by eapply list_elem_of_lookup_2.
  - apply lookup_ge_None in Hl. simpl in Hl. lia.
Qed.

Lemma tile_label_spec_succ (value : Z) :
  tile_label_spec (value + 1) ≠ tile_label_spec value.
Proof.
  unfold tile_label_spec. pose proof (Z.mod_pos_bound value 6) as Hb.
  rewrite Z.add_mod by done.
  assert (value `mod` 6 = 0 ∨ value `mod` 6 = 1 ∨ value `mod` 6 = 2
          ∨ value `mod` 6 = 3 ∨ value `mod` 6 = 4 ∨ value `mod` 6 = 5)
    as Hcases by lia.
  by destruct Hcases as [-> | [-> | [-> | [-> | [-> | ->]]]]].
Qed.

Lemma get_tile_type_in_TILE_TYPES (self : Tiling) (pos : Point)
    (neighbors : option (list string)) :
  get_tile_type self pos neighbors ∈ TILE_TYPES.
Proof.
  destruct neighbors as [neighbors|].
  - rewrite get_tile_type_rules. apply tile_label_spec_valid.
  - unfold get_tile_type. rewrite tile_label_spec_nth.
    apply tile_label_spec_valid.
Qed.

(** X3.  [get_tile_type] always returns one of the six entries of
    [TILE_TYPES], whatever the position and whether or not neighbour labels
    are supplied; the six entries are distinct. *)
Theorem get_tile_type_valid (self : Tiling) (pos : Point)
    (neighbors : option (list string)) :
  get_tile_type self pos neighbors ∈ TILE_TYPES
  ∧ NoDup TILE_TYPES ∧ length TILE_TYPES = 6%nat.
Proof.
  split_and!; [apply get_tile_type_in_TILE_TYPES| |done].
  apply (bool_decide_unpack _). by vm_compute.
Qed.

(** X4.  Neighbour influence: when at least three neighbour labels are
    supplied and all are identical, the label differs from the one the same
    position gets without neighbours (with no list and with an empty list). *)
Theorem uniform_neighbors_change_label (self : Tiling) (pos : Point)
    (neighbors : list string) :
  3 ≤ Z.of_nat (length neighbors) → all_identical neighbors →
  get_tile_type self pos (Some neighbors) ≠ get_tile_type self pos None
  ∧ get_tile_type self pos (Some neighbors) ≠ get_tile_type self pos (Some []).
Proof.
  intros Hlen Hid.
  assert (get_tile_type self pos (Some []) = get_tile_type self pos None)
    as Hnil by reflexivity.
  rewrite Hnil.
  assert (get_tile_type self pos (Some neighbors) ≠ get_tile_type self pos None)
    as Hmain; [|done].
  rewrite get_tile_type_rules.
  unfold get_tile_type. rewrite tile_label_spec_nth.
  unfold tile_rules_spec.
  rewrite (bool_decide_eq_false_2 ("A" ∈ _ ∧ _))
    by (by apply identical_not_A_and_B).
  rewrite bool_decide_eq_true_2 by done. apply tile_label_spec_succ.
Qed.
End label_properties.

Lemma uniform_neighbors_change_label_witness :
  (3 ≤ Z.of_nat (length ["A"; "A"; "A"; "A"])
   ∧ all_identical ["A"; "A"; "A"; "A"])
  ∧ @get_tile_type toy_hashlib (mkTiling 42) (mkPoint 5 5)
      (Some ["A"; "A"; "A"; "A"])
    ≠ @get_tile_type toy_hashlib (mkTiling 42) (mkPoint 5 5) None
  ∧ @get_tile_type toy_hashlib (mkTiling 42) (mkPoint 5 5)
      (Some ["A"; "A"; "A"; "A"])
    ≠ @get_tile_type toy_hashlib (mkTiling 42) (mkPoint 5 5) (Some []).
Proof.
  assert (3 ≤ Z.of_nat (length ["A"; "A"; "A"; "A"])) as Hlen by (simpl; lia).
  assert (all_identical ["A"; "A"; "A"; "A"]) as Hid
    by (apply (bool_decide_unpack _); vm_compute; exact I).
  split; [by split|].
  exact (@uniform_neighbors_change_label toy_hashlib (mkTiling 42) (mkPoint 5 5)
           ["A"; "A"; "A"; "A"] Hlen Hid).
Defined.

Section region_extra_properties.
Context `{Hashlib}.

Lemma foldl_bind_singleton {A B C} (f : A → B → A) (g : C → B) (a : A)
    (l : list C) :
  foldl f a (x ← l; [g x]) = foldl (λ a x, f a (g x)) a l.
Proof. revert a. induction l as [|x l IH]; intros a; csimpl; [done|apply IH]. Qed.

Lemma foldl_bind {A B C} (f : A → B → A) (g : C → list B) (a : A) (l : list C) :
  foldl f a (l ≫= g) = foldl (λ a x, foldl f a (g x)) a l.
Proof.
  revert a. induction l as [|x l IH]; intros a; csimpl; [done|].
  by rewrite foldl_app, IH.
Qed.

Lemma generate_region_flat (self : Tiling) (width height : Z)
    (origin : option Point) :
  generate_region self width height origin
  = foldl (place_at self) ∅
      (region_points (default (mkPoint 0 0) origin) width height).
Proof.
  unfold generate_region, region_points. rewrite foldl_bind.
  generalize (∅ : gmap Point string).
  induction (seqZ 0 height) as [|y ys IH]; intros tiles; simpl; [done|].
  rewrite foldl_bind_singleton. apply IH.
Qed.

Lemma place_at_lookup_other (self : Tiling) (pts : list Point)
    (tiles : gmap Point string) (p : Point) :
  p ∉ pts → foldl (place_at self) tiles pts !! p = tiles !! p.
Proof.
  revert tiles. induction pts as [|q pts IH]; intros tiles Hp; simpl; [done|].
  rewrite IH by (intros ?; apply Hp; by right).
  unfold place_at. apply lookup_insert_ne. intros ->. apply Hp. by left.
Qed.

Lemma place_at_valid (self : Tiling) (pts : list Point)
    (tiles : gmap Point string) :
  map_Forall (λ _ tile, tile ∈ TILE_TYPES) tiles →
  map_Forall (λ _ tile, tile ∈ TILE_TYPES) (foldl (place_at self) tiles pts).
Proof.
  revert tiles. induction pts as [|q pts IH]; intros tiles Hok; simpl; [done|].
  apply IH. unfold place_at.
  apply map_Forall_insert_2; [apply get_tile_type_in_TILE_TYPES | done].
Qed.


(** X6.  Every label of a generated region, and so of a created instance,
    is one of the six entries of [TILE_TYPES]. *)
Theorem generate_region_labels_valid (self : Tiling) (protocol : SpectralProtocol)
    (width height size : Z) (origin : option Point) :
  map_Forall (λ _ tile, tile ∈ TILE_TYPES)
    (generate_region self width height origin)
  ∧ map_Forall (λ _ tile, tile ∈ TILE_TYPES)
      (Instance_tiles (create_instance protocol size)).
Proof.
  split; [|unfold create_instance; simpl]; rewrite generate_region_flat;
    apply place_at_valid, map_Forall_empty.
Qed.

Lemma region_points_app (origin : Point) (width h1 h2 : Z) :
  0 ≤ h1 → 0 ≤ h2 →
  region_points origin width (h1 + h2)
  = (region_points origin width h1
     ++ (y ← seqZ h1 h2; x ← seqZ 0 width;
         [mkPoint (Point_x origin + x) (Point_y origin + y)]))%list.
Proof.
  intros ??. unfold region_points. by rewrite seqZ_app, bind_app.
Qed.

(** X7.  Rows are generated bottom-up and never revisited: a region of
    height [h'] agrees with the region of height [h <= h'] (same tiling,
    width and origin) at every point below row [h]. *)
Theorem generate_region_rows_stable (self : Tiling) (width h h' : Z)
    (origin : option Point) (p : Point) :
  0 ≤ h ≤ h' →
  Point_y p < Point_y (default (mkPoint 0 0) origin) + h →
  generate_region self width h' origin !! p
  = generate_region self width h origin !! p.
Proof.
  intros Hh Hp. rewrite !generate_region_flat.
  replace h' with (h + (h' - h)) by lia.
  rewrite region_points_app, foldl_app by lia.
  apply place_at_lookup_other.
  intros (y & (x & ->%list_elem_of_singleton & _)%list_elem_of_bind
            & Hy%elem_of_seqZ)%list_elem_of_bind.
  simpl in Hp. lia.
Qed.
End region_extra_properties.

Lemma generate_region_rows_stable_witness :
  (0 ≤ 2 ≤ 3 ∧ Point_y (mkPoint 1 1) < Point_y (default (mkPoint 0 0) None) + 2)
  ∧ @generate_region toy_hashlib (mkTiling 42) 3 3 None !! mkPoint 1 1
    = @generate_region toy_hashlib (mkTiling 42) 3 2 None !! mkPoint 1 1.
Proof.
  assert (0 ≤ 2 ≤ 3) as Hh by lia.
  assert (Point_y (mkPoint 1 1) < Point_y (default (mkPoint 0 0) None) + 2)
    as Hp by (simpl; lia).
  split; [by split|].
  exact (@generate_region_rows_stable toy_hashlib (mkTiling 42) 3 2 3 None
           (mkPoint 1 1) Hh Hp).
Defined.

Section region_causality.
Context `{Hashlib}.

Lemma StronglySorted_seqZ (m n : Z) : StronglySorted Z.lt (seqZ m n).
Proof.
  unfold seqZ. apply (StronglySorted_fmap _ lt); [intros; lia|].
  generalize 0%nat. induction (Z.to_nat n) as [|k IH]; intros a; simpl.
  - constructor.
  - constructor; [apply IH|]. apply Forall_forall. intros x Hx%elem_of_seq. lia.
Qed.

Lemma row_points_sorted (origin : Point) (y : Z) (xs : list Z) :
  StronglySorted Z.lt xs →
  StronglySorted placed_before
    (x ← xs; [mkPoint (Point_x origin + x) (Point_y origin + y)]).
Proof.
  induction 1 as [|x xs Hxs IH Hlt]; csimpl; constructor; [done|].
  apply Forall_forall.
  intros p (x2 & ->%list_elem_of_singleton & Hx2)%list_elem_of_bind.
  rewrite Forall_forall in Hlt. specialize (Hlt _ Hx2).
  right. simpl. lia.
Qed.

Lemma rows_points_sorted (origin : Point) (xs ys : list Z) :
  StronglySorted Z.lt xs → StronglySorted Z.lt ys →
  StronglySorted placed_before
    (y ← ys; x ← xs; [mkPoint (Point_x origin + x) (Point_y origin + y)]).
Proof.
  intros Hxs. induction 1 as [|y ys Hys IH Hlt]; csimpl; [constructor|].
  apply StronglySorted_app_2; [|by apply row_points_sorted|done].
  intros p1 p2 (x1 & ->%list_elem_of_singleton & _)%list_elem_of_bind
    (y2 & (x2 & ->%list_elem_of_singleton & _)%list_elem_of_bind
        & Hy2)%list_elem_of_bind.
  rewrite Forall_forall in Hlt. specialize (Hlt _ Hy2).
  left. simpl. lia.
Qed.

Lemma region_points_sorted (origin : Point) (width height : Z) :
  StronglySorted placed_before (region_points origin width height).
Proof. apply rows_points_sorted; apply StronglySorted_seqZ. Qed.

Lemma omap_pointwise {A B} (f g : A → option B) (l : list A) :
  (∀ x, f x = g x) → omap f l = omap g l.
Proof. intros Hfg. induction l as [|x l IH]; csimpl; [done|]. by rewrite Hfg, IH. Qed.

Lemma place_at_causal (self : Tiling) (pts : list Point)
    (tiles : gmap Point string) :
  StronglySorted placed_before pts →
  (∀ q r, is_Some (tiles !! q) → r ∈ pts → placed_before q r) →
  (∀ q tile, tiles !! q = Some tile →
             tile = get_tile_type self q (Some (placed_neighbor_types tiles q))) →
  ∀ q tile, foldl (place_at self) tiles pts !! q = Some tile →
            tile = get_tile_type self q
                     (Some (placed_neighbor_types
                              (foldl (place_at self) tiles pts) q)).
Proof.
  intros Hsorted. revert tiles.
  induction Hsorted as [|pos rest Hsorted IH Hpos]; intros tiles Hbefore Hok;
    simpl; [done|].
  rewrite Forall_forall in Hpos.
  assert (∀ n, placed_before n pos → place_at self tiles pos !! n = tiles !! n)
    as Hkeep.
  { intros n Hn. unfold place_at. apply lookup_insert_ne. intros ->.
    unfold placed_before in Hn. lia. }
  apply IH.
  - intros q r [t Hq] Hr. unfold place_at in Hq.
    apply lookup_insert_Some in Hq as [[<- _]|[_ Hq]]; [by apply Hpos|].
    apply Hbefore; [by eexists | by right].
  - intros q tile Hq. unfold place_at in Hq.
    apply lookup_insert_Some in Hq as [[<- <-]|[Hne Hq]].
    + do 2 f_equal. unfold placed_neighbor_types. apply omap_pointwise.
      intros n. destruct (decide (placed_before n pos)) as [Hn|Hn].
      * by rewrite Hkeep.
      * destruct (tiles !! n) as [t|] eqn:Hl; [|done]. destruct Hn.
        apply Hbefore; [by eexists | by left].
    + rewrite (Hok q tile Hq). do 2 f_equal. unfold placed_neighbor_types.
      apply omap_pointwise. intros n.
      destruct (decide (placed_before n q)) as [Hn|Hn]; [|done].
      symmetry. apply Hkeep.
      assert (placed_before q pos) as Hqp
        by (apply Hbefore; [by eexists | by left]).
      unfold placed_before in *. lia.
Qed.

(** X8.  Causal dependency of the generated labels: every tile of a
    generated region carries the label [get_tile_type] gives its position
    from the labels, in [get_neighbors] order, of those of its neighbours
    that lie in the region on a lower row or further left on its own row;
    neighbours placed later or outside the region do not influence it. *)
Theorem generate_region_causal (self : Tiling) (width height : Z)
    (origin : option Point) (p : Point) (tile : string) :
  let tiles := generate_region self width height origin in
  tiles !! p = Some tile →
  tile = get_tile_type self p (Some (placed_neighbor_types tiles p)).
Proof.
  intros tiles. unfold tiles. rewrite generate_region_flat.
  apply place_at_causal.
  - apply region_points_sorted.
  - intros q r [t Hq]. by rewrite lookup_empty in Hq.
  - intros q t Hq. by rewrite lookup_empty in Hq.
Qed.
End region_causality.

Lemma generate_region_causal_witness :
  let tiles := @generate_region toy_hashlib (mkTiling 42) 3 3 None in
  tiles !! mkPoint 1 1 = Some "D"
  ∧ placed_neighbor_types tiles (mkPoint 1 1) = ["C"; "C"; "C"; "C"]
  ∧ "D" = @get_tile_type toy_hashlib (mkTiling 42) (mkPoint 1 1)
            (Some (placed_neighbor_types tiles (mkPoint 1 1))).
Proof.
  intros tiles.
  assert (tiles !! mkPoint 1 1 = Some "D") as Hl by (by vm_compute).
  split_and!; [exact Hl | by vm_compute |].
  exact (@generate_region_causal toy_hashlib (mkTiling 42) 3 3 None
           (mkPoint 1 1) "D" Hl).
Defined.

(** ** The random walk of the tiling engine *)

Section random_walk_properties.

Lemma steps_adjacent_short (points : list Point) :
  (length points ≤ 1)%nat → steps_adjacent points.
Proof.
  intros Hlen i p q Hp Hq. apply lookup_lt_Some in Hq. lia.
Qed.

Lemma steps_adjacent_cons (p q : Point) (points : list Point) :
  q ∈ get_neighbors p default_radius → steps_adjacent (q :: points) →
  steps_adjacent (p :: q :: points).
Proof.
  intros Hq Hadj [|i] a b Ha Hb; simpl in *.
  - by injection Ha as <-; injection Hb as <-.
  - by apply (Hadj i).
Qed.

Lemma elem_of_tile_neighbors (tiles : gmap Point string) (pos n : Point) :
  n ∈ tile_neighbors tiles pos
  ↔ is_Some (tiles !! n) ∧ n ∈ get_neighbors pos default_radius.
Proof. unfold tile_neighbors. by rewrite list_elem_of_filter. Qed.

Lemma tile_neighbors_back (tiles : gmap Point string) (pos n : Point) :
  is_Some (tiles !! pos) → n ∈ tile_neighbors tiles pos →
  tile_neighbors tiles n ≠ [].
Proof.
  intros Hpos [_ Hn]%elem_of_tile_neighbors Hnil.
  assert (pos ∈ tile_neighbors tiles n) as Hin.
  { apply elem_of_tile_neighbors. split; [done|].
    by apply get_neighbors_sym. }
  rewrite Hnil in Hin. by apply elem_of_nil in Hin.
Qed.

Lemma find_path_loop_walk (random_choice : nat → nat)
    (tiles : gmap Point string) (fuel k : nat)
    (path : list (Point * string)) (current : Point) :
  is_Some (tiles !! current) →
  ∃ ext, find_path_loop random_choice tiles fuel k path current
         = Some (path ++ ext)%list
    ∧ (∀ p t, (p, t) ∈ ext → tiles !! p = Some t)
    ∧ (ext = [] ∨ ∃ t rest, ext = (current, t) :: rest)
    ∧ steps_adjacent ext.*1
    ∧ length ext = (if decide (tile_neighbors tiles current = [])
                    then Nat.min fuel 1 else fuel).
Proof.
  revert k path current.
  induction fuel as [|fuel IH]; intros k path current [tile Hcur]; simpl.
  { exists []. rewrite app_nil_r. split_and!; [done| |by left| |].
    - by intros ?? ?%elem_of_nil.
    - apply steps_adjacent_short; simpl; lia.
    - by destruct (decide _). }
  rewrite Hcur. simpl. fold (tile_neighbors tiles current).
  destruct (tile_neighbors tiles current) as [|n0 valid_next] eqn:Hvalid.
  { exists [(current, tile)]. rewrite decide_True by done.
    split_and!; [done| |right; by eexists _, _| |simpl; lia].
    - by intros p t [= -> ->]%list_elem_of_singleton.
    - apply steps_adjacent_short; simpl; lia. }
  rewrite decide_False by done.
  set (idx := (random_choice k `mod` length (n0 :: valid_next))%nat).
  destruct (lookup_lt_is_Some_2 (n0 :: valid_next) idx) as [next Hnext].
  { apply Nat.mod_upper_bound. done. }
  rewrite Hnext. simpl.
  assert (next ∈ tile_neighbors tiles current) as Hin
    by (rewrite Hvalid; by eapply list_elem_of_lookup_2).
  pose proof Hin as [Hnext_tile Hnext_nb]%elem_of_tile_neighbors.
  destruct (IH (S k) (path ++ [(current, tile)])%list next Hnext_tile)
    as (ext & -> & Hvalid' & Hhead & Hadj & Hlen).
  exists ((current, tile) :: ext). rewrite <- app_assoc.
  split_and!; [done| |right; by eexists _, _| |].
  - intros p t [[= -> ->]|?]%elem_of_cons; [done|by apply Hvalid'].
  - destruct Hhead as [->|(t & rest & ->)]; [apply steps_adjacent_short; simpl; lia|].
    by apply steps_adjacent_cons.
  - simpl. rewrite Hlen. rewrite decide_False; [done|].
    apply (tile_neighbors_back tiles current); [by eexists | done].
Qed.

(** X9.  [Tiling.find_path] never raises: it returns a path whose entries
    are tiles of the mapping with their labels, in which each point is a
    neighbour of the one before, and which has at most [length] entries;
    the path is empty when the start is not a key and starts at the start
    point otherwise (for [length >= 1]). *)
Theorem find_path_walk (self : Tiling) (random_choice : nat → nat)
    (tiles : gmap Point string) (start : Point) (length_ : Z) :
  ∃ path, find_path self random_choice tiles start length_ = Some path
    ∧ (∀ p t, (p, t) ∈ path → tiles !! p = Some t)
    ∧ steps_adjacent path.*1
    ∧ Z.of_nat (length path) ≤ Z.max 0 length_
    ∧ (tiles !! start = None → path = [])
    ∧ (is_Some (tiles !! start) → 1 ≤ length_ →
       ∃ t rest, path = (start, t) :: rest).
Proof.
  unfold find_path. destruct (tiles !! start) as [tile|] eqn:Hstart.
  - destruct (find_path_loop_walk random_choice tiles (Z.to_nat length_) 0 []
                start) as (ext & -> & Hvalid & Hhead & Hadj & Hlen);
      [by eexists|].
    exists ext. split_and!; [done|done|done| |done|].
    + destruct (decide _); lia.
    + intros _ HL. destruct Hhead as [->|?]; [|done].
      simpl in Hlen. destruct (decide _); lia.
  - exists []. split_and!; [done| | |simpl; lia|done|by intros [??]].
    + by intros ?? ?%elem_of_nil.
    + apply steps_adjacent_short; simpl; lia.
Qed.

End random_walk_properties.

Lemma find_path_walk_witness :
  (is_Some (Instance_tiles sample_instance !! mkPoint 1 1) ∧ 1 ≤ 4)
  ∧ ∃ path,
      find_path (mkTiling 42) (λ k, k) (Instance_tiles sample_instance)
        (mkPoint 1 1) 4 = Some path
      ∧ steps_adjacent path.*1
      ∧ Z.of_nat (length path) ≤ Z.max 0 4
      ∧ ∃ t rest, path = (mkPoint 1 1, t) :: rest.
Proof.
  assert (is_Some (Instance_tiles sample_instance !! mkPoint 1 1)) as Hin
    by (apply (bool_decide_unpack _); vm_compute; exact I).
  assert (1 ≤ 4) as HL by lia.
  split; [by split|].
  destruct (find_path_walk (mkTiling 42) (λ k, k)
              (Instance_tiles sample_instance) (mkPoint 1 1) 4)
    as (path & Hpath & _ & Hadj & Hlen & _ & Hhead).
  exists path. split_and!; [exact Hpath | exact Hadj | exact Hlen|].
  exact (Hhead Hin HL).
Defined.


(** ** The deterministic walk of the protocol *)

Section greedy_walk_properties.

Global Instance point_key_le_total : Total point_key_le.
Proof. intros p q. unfold point_key_le. lia. Qed.

Global Instance point_key_le_trans : Transitive point_key_le.
Proof. intros p q r. unfold point_key_le. lia. Qed.

Lemma merge_sort_head_least (l : list Point) (next : Point) (rest : list Point) :
  merge_sort point_key_le l = next :: rest →
  next ∈ l ∧ ∀ n, n ∈ l → point_key_le next n.
Proof.
  intros Hsort.
  pose proof (StronglySorted_merge_sort point_key_le l) as Hs.
  pose proof (merge_sort_Permutation point_key_le l) as Hp.
  rewrite Hsort in Hs, Hp. split.
  - rewrite <- Hp. by left.
  - intros n Hn. rewrite <- Hp in Hn.
    apply StronglySorted_cons in Hs as [Hall _]. rewrite Forall_forall in Hall.
    apply elem_of_cons in Hn as [->|Hn]; [|by apply Hall].
    unfold point_key_le. lia.
Qed.

Lemma merge_sort_nonempty (l : list Point) :
  l ≠ [] → merge_sort point_key_le l ≠ [].
Proof.
  intros Hl Hnil. pose proof (merge_sort_Permutation point_key_le l) as Hp.
  rewrite Hnil in Hp. by apply Permutation_nil in Hp.
Qed.

Lemma _find_path_loop_greedy (tiles : gmap Point string) (fuel : nat)
    (path : list (Point * string)) (current : Point) (visited : gset Point) :
  (∀ p, p ∈ visited ↔ p ∈ path.*1) → current ∉ path.*1 →
  ∃ ext, _find_path_loop tiles fuel path current visited = (path ++ ext)%list
    ∧ (ext = [] ∨ ∃ t rest, ext = (current, t) :: rest)
    ∧ (is_Some (tiles !! current) → (0 < fuel)%nat → ext ≠ [])
    ∧ greedy_from tiles path.*1 ext.*1
    ∧ ((length ext < fuel)%nat →
       (ext = [] ∧ tiles !! current = None)
       ∨ ∃ p, last ext.*1 = Some p
              ∧ dead_end tiles ((path ++ ext)%list).*1 p).
Proof.
  revert path current visited.
  induction fuel as [|fuel IH]; intros path current visited Hvis Hfresh; simpl.
  { exists []. rewrite app_nil_r. split_and!; [done|by left|lia| |lia].
    intros i p q Hp. by destruct i. }
  destruct (tiles !! current) as [tile|] eqn:Hcur.
  2:{ exists []. rewrite app_nil_r.
      split_and!; [done|by left|by intros [??]| |by left].
      intros i p q Hp. by destruct i. }
  rewrite bool_decide_eq_false_2 by (by rewrite Hvis).
  set (path' := (path ++ [(current, tile)])%list).
  set (visited' := visited ∪ {[current]}).
  assert (∀ p, p ∈ visited' ↔ p ∈ path'.*1) as Hvis'.
  { intros p. unfold visited', path'. rewrite fmap_app, elem_of_app. simpl.
    rewrite elem_of_union, Hvis, elem_of_singleton, list_elem_of_singleton.
    done. }
  destruct (filter _ _) as [|n0 valid_next] eqn:Hvalid.
  { exists [(current, tile)]. split_and!; [done|right; by eexists _, _|done| |].
    - intros [|i] p q Hp Hq; simpl in *; by rewrite ?lookup_nil in Hq.
    - intros _. right. exists current. split; [done|].
      intros n Hn Htile. fold path'. apply Hvis'.
      destruct (decide (n ∈ visited')) as [|Hnot]; [done|].
      assert (n ∈ filter (λ n, is_Some (tiles !! n) ∧ n ∉ visited')
                    (get_neighbors current default_radius)) as Hin
        by (by apply list_elem_of_filter).
      rewrite Hvalid in Hin. by apply elem_of_nil in Hin. }
  destruct (merge_sort point_key_le (n0 :: valid_next)) as [|next rest] eqn:Hsort.
  { by apply merge_sort_nonempty in Hsort. }
  apply merge_sort_head_least in Hsort as [Hnext Hleast].
  rewrite <- Hvalid in Hnext, Hleast.
  apply list_elem_of_filter in Hnext as [[Hnext_tile Hnext_new] Hnext_nb].
  assert (greedy_step tiles path'.*1 current next) as Hstep.
  { split_and!; [done|done|by rewrite <- Hvis'|].
    intros n Hn Htile Hnew. apply Hleast, list_elem_of_filter.
    by rewrite Hvis'. }
  destruct (IH path' next visited' Hvis') as (ext & -> & Hhead & Hne & Hgreedy & Hstop).
  { by rewrite <- Hvis'. }
  exists ((current, tile) :: ext). unfold path'. rewrite <- app_assoc.
  split_and!; [done|right; by eexists _, _|done| |].
  - intros [|i] p q Hp Hq; simpl in Hp, Hq.
    + injection Hp as <-.
      destruct Hhead as [->|(t & rest' & ->)]; [done|]. injection Hq as <-.
      unfold path' in Hstep. rewrite fmap_app in Hstep. done.
    + specialize (Hgreedy i p q Hp Hq). unfold path' in Hgreedy.
      rewrite fmap_app, <- app_assoc in Hgreedy. done.
  - intros Hlen. simpl in Hlen. right.
    destruct Hstop as [[-> Hnone]|(p & Hlast & Hdead)]; [lia| |].
    { destruct Hnext_tile as [? Ht]. by rewrite Ht in Hnone. }
    exists p. split.
    + destruct Hhead as [->|(t & rest' & ->)]; [done|]. done.
    + unfold path' in Hdead. by rewrite <- app_assoc in Hdead.
Qed.

(** X11.  The protocol's walk is greedy: every step of [_find_path] goes
    from a point to the neighbour that is smallest by [(x, y)] among those
    that are keys of [tiles] and not yet on the path.  The path starts at
    the start point when that is a key and [length >= 1], and it is shorter
    than [length] only if the start is not a key or its last point is a
    dead end (every neighbour that is a key is already on the path). *)
Theorem _find_path_greedy_walk (self : SpectralProtocol)
    (tiles : gmap Point string) (start : Point) (length_ : Z) :
  let path := _find_path self tiles start length_ in
  greedy_from tiles [] path.*1
  ∧ (is_Some (tiles !! start) → 1 ≤ length_ →
     ∃ tile rest, path = (start, tile) :: rest)
  ∧ (Z.of_nat (length path) < length_ →
     (path = [] ∧ tiles !! start = None)
     ∨ ∃ p, last path.*1 = Some p ∧ dead_end tiles path.*1 p).
Proof.
  intros path. unfold path, _find_path.
  destruct (_find_path_loop_greedy tiles (Z.to_nat length_) [] start ∅)
    as (ext & -> & Hhead & Hne & Hgreedy & Hstop).
  { intros p. simpl. rewrite elem_of_nil. set_solver. }
  { by intros ?%elem_of_nil. }
  simpl in *. split_and!; [done| |].
  - intros Hstart HL. destruct Hhead as [->|?]; [|done].
    destruct Hne; [done|lia|done].
  - intros Hlen. apply Hstop. lia.
Qed.
End greedy_walk_properties.

Lemma _find_path_greedy_walk_witness :
  let tiles := Instance_tiles sample_instance in
  let path := _find_path sample_protocol tiles (mkPoint 1 1) 20 in
  (is_Some (tiles !! mkPoint 1 1) ∧ 1 ≤ 20 ∧ Z.of_nat (length path) < 20)
  ∧ greedy_from tiles [] path.*1
  ∧ (∃ tile rest, path = (mkPoint 1 1, tile) :: rest)
  ∧ ((path = [] ∧ tiles !! mkPoint 1 1 = None)
     ∨ ∃ p, last path.*1 = Some p ∧ dead_end tiles path.*1 p).
Proof.
  intros tiles path.
  assert (is_Some (tiles !! mkPoint 1 1)) as Hin
    by (apply (bool_decide_unpack _); vm_compute; exact I).
  assert (1 ≤ 20) as HL by lia.
  assert (Z.of_nat (length path) < 20) as Hshort by (by vm_compute).
  split; [by split_and!|].
  destruct (_find_path_greedy_walk sample_protocol tiles (mkPoint 1 1) 20)
    as (Hgreedy & Hhead & Hstop).
  split_and!; [exact Hgreedy | exact (Hhead Hin HL) | exact (Hstop Hshort)].
Defined.

Section path_prefix_properties.

Lemma _find_path_loop_extends (tiles : gmap Point string) (fuel : nat)
    (path : list (Point * string)) (current : Point) (visited : gset Point) :
  ∃ ext, _find_path_loop tiles fuel path current visited = (path ++ ext)%list.
Proof.
  revert path current visited.
  induction fuel as [|fuel IH]; intros path current visited; simpl.
  { exists []. by rewrite app_nil_r. }
  destruct (tiles !! current) as [tile|]; [|exists []; by rewrite app_nil_r].
  case_bool_decide; [exists []; by rewrite app_nil_r|].
  destruct (filter _ _) as [|n0 valid_next]; [by eexists|].
  destruct (merge_sort _ _) as [|next rest]; [by eexists|].
  destruct (IH (path ++ [(current, tile)])%list next (visited ∪ {[current]}))
    as [ext ->].
  exists ((current, tile) :: ext). by rewrite <- app_assoc.
Qed.

Lemma _find_path_loop_take (tiles : gmap Point string) (fuel fuel' : nat)
    (path : list (Point * string)) (current : Point) (visited : gset Point) :
  (fuel ≤ fuel')%nat →
  _find_path_loop tiles fuel path current visited
  = take (length path + fuel)
      (_find_path_loop tiles fuel' path current visited).
Proof.
  revert fuel' path current visited.
  induction fuel as [|fuel IH]; intros fuel' path current visited Hle.
  { destruct (_find_path_loop_extends tiles fuel' path current visited)
      as [ext ->].
    simpl. by rewrite Nat.add_0_r, take_app_length. }
  destruct fuel' as [|fuel']; [lia|]. simpl.
  assert (∀ l : list (Point * string),
            (length l ≤ length path + S fuel)%nat →
            l = take (length path + S fuel) l) as Hshort
    by (intros l Hl; by rewrite take_ge).
  destruct (tiles !! current) as [tile|]; [|apply Hshort; lia].
  case_bool_decide; [apply Hshort; lia|].
  destruct (filter _ _) as [|n0 valid_next];
    [apply Hshort; rewrite length_app; simpl; lia|].
  destruct (merge_sort _ _) as [|next rest];
    [apply Hshort; rewrite length_app; simpl; lia|].
  rewrite (IH fuel') by lia. f_equal. rewrite length_app. simpl. lia.
Qed.

(** X12.  Asking [_find_path] for a longer path only extends it: the path
    of length [L] is the first [L] entries of the path of any length
    [L' >= L] from the same start over the same tiles. *)
Theorem _find_path_take (self : SpectralProtocol) (tiles : gmap Point string)
    (start : Point) (L L' : Z) :
  0 ≤ L ≤ L' →
  _find_path self tiles start L
  = take (Z.to_nat L) (_find_path self tiles start L').
Proof.
  intros HL. unfold _find_path.
  by rewrite (_find_path_loop_take tiles (Z.to_nat L) (Z.to_nat L')) by lia.
Qed.
End path_prefix_properties.

Lemma _find_path_take_witness :
  0 ≤ 3 ≤ 5
  ∧ _find_path sample_protocol (Instance_tiles sample_instance) (mkPoint 1 1) 3
    = take (Z.to_nat 3)
        (_find_path sample_protocol (Instance_tiles sample_instance)
           (mkPoint 1 1) 5).
Proof.
  assert (0 ≤ 3 ≤ 5) as HL by lia.
  split; [exact HL|].
  exact (_find_path_take sample_protocol (Instance_tiles sample_instance)
           (mkPoint 1 1) 3 5 HL).
Defined.

(** ** Commitments, continued *)

Section commitment_extra_properties.
Context `{Hashlib}.

(** X13.  Opening round trip: whatever the value and whether the nonce is
    supplied or drawn, the commitment returned by [create] verifies against
    the value and the nonce returned with it; the returned nonce is the
    supplied one, or the drawn one when none is supplied.  The same holds of
    [create_vector], which commits to the list as one value. *)
Theorem commitment_round_trip (token_hex16 : string) (value : PyValue)
    (values : list PyValue) (nonce : option string) :
  let '(c, n) := Commitment.create token_hex16 value nonce in
  let '(cv, nv) := Commitment.create_vector token_hex16 values nonce in
  Commitment.verify c value n = true
  ∧ n = default token_hex16 nonce
  ∧ Commitment.verify cv (PyList values) nv = true
  ∧ (cv, nv) = Commitment.create token_hex16 (PyList values) nonce.
Proof.
  unfold Commitment.create_vector.
  destruct nonce as [nonce|]; simpl;
    rewrite ?create_with_nonce, ?create_fresh_nonce;
    split_and!; try done; by apply verify_true_iff.
Qed.

(** X14.  [verify] sees a value only through its serialization: two values
    that serialize alike open the same commitments.  In particular a tuple
    and the list of the same items are interchangeable. *)
Theorem commitment_serialization_only (c : string) (v v' : PyValue)
    (n : string) (items : list PyValue) :
  (serialized_value v = serialized_value v' →
   Commitment.verify c v n = Commitment.verify c v' n)
  ∧ Commitment.verify c (PyTuple items) n
    = Commitment.verify c (PyList items) n.
Proof.
  assert (∀ a b, serialized_value a = serialized_value b →
                 Commitment.verify c a n = Commitment.verify c b n) as Hser.
  { intros a b Hab. apply eq_true_iff_eq. rewrite !verify_true_iff.
    unfold commitment_preimage. by rewrite Hab. }
  split; [apply Hser|]. by apply Hser.
Qed.

(** X15.  The commitment of an honest witness opens to its path: for a
    witness returned by [generate_witness], [Commitment.verify] accepts the
    witness commitment for the list of [(str(pos), tile)] pairs of the path
    under the witness nonce, which is the nonce drawn. *)
Theorem witness_commitment_opens (self : SpectralProtocol) (random_choice : nat)
    (token_hex16 : string) (instance : Instance) (path_length : Z)
    (start : option Point) (witness : Witness) :
  generate_witness self random_choice token_hex16 instance path_length start
  = Some witness →
  Commitment.verify (Witness_commitment witness)
    (witness_path_data (Witness_path witness)) (Witness_nonce witness) = true
  ∧ Witness_nonce witness = token_hex16.
Proof.
  unfold generate_witness. intros Hgen.
  destruct (match start with Some _ => _ | None => _ end) as [start'|];
    simpl in Hgen; [|done].
  injection Hgen as <-. simpl. split; [|done].
  by apply verify_true_iff.
Qed.
End commitment_extra_properties.

Lemma commitment_serialization_only_witness :
  serialized_value (PyStr "[1, 2]") = serialized_value (PyList [PyInt 1; PyInt 2])
  ∧ @Commitment.verify toy_hashlib "[1, 2]||ab" (PyStr "[1, 2]") "ab"
    = @Commitment.verify toy_hashlib "[1, 2]||ab" (PyList [PyInt 1; PyInt 2]) "ab".
Proof.
  assert (serialized_value (PyStr "[1, 2]")
          = serialized_value (PyList [PyInt 1; PyInt 2])) as Hser by reflexivity.
  split; [exact Hser|].
  exact (proj1 (@commitment_serialization_only toy_hashlib "[1, 2]||ab"
                  (PyStr "[1, 2]") (PyList [PyInt 1; PyInt 2]) "ab" []) Hser).
Defined.

Lemma witness_commitment_opens_witness :
  @generate_witness toy_hashlib sample_protocol 0 "5eed" sample_instance 5
    (Some (mkPoint 1 1)) = Some sample_witness
  ∧ @Commitment.verify toy_hashlib (Witness_commitment sample_witness)
      (witness_path_data (Witness_path sample_witness))
      (Witness_nonce sample_witness) = true
  ∧ Witness_nonce sample_witness = "5eed".
Proof.
  split; [apply sample_witness_generated|].
  exact (@witness_commitment_opens toy_hashlib sample_protocol 0%nat "5eed"
           sample_instance 5 (Some (mkPoint 1 1)) sample_witness
           sample_witness_generated).
Defined.

(** ** Responses *)

Section respond_properties.

Lemma reveal_step_Some (path : list (Point * string)) (i : Z)
    (step : Z * option Point * option string) :
  reveal_step path i = Some step →
  ∃ pos tile, step = (i, pos, tile)
    ∧ (Z.of_nat (length path) ≤ i → pos = None ∧ tile = None)
    ∧ (0 ≤ i < Z.of_nat (length path) →
       ∃ p t, path !! Z.to_nat i = Some (p, t) ∧ pos = Some p ∧ tile = Some t)
    ∧ (i < 0 →
       ∃ p t, path !! Z.to_nat (Z.of_nat (length path) + i) = Some (p, t)
              ∧ pos = Some p ∧ tile = Some t).
Proof.
  unfold reveal_step, py_index. case_bool_decide as Hlt.
  - destruct (decide (0 ≤ i)) as [Hi|Hi].
    + rewrite bool_decide_eq_true_2 by done.
      destruct (path !! Z.to_nat i) as [[p t]|] eqn:Hl; simpl; [|done].
      intros [= <-]. eexists _, _. split_and!; [done|lia| |lia]. by eexists _, _.
    + rewrite bool_decide_eq_false_2 by done. case_bool_decide; [|done].
      destruct (path !! Z.to_nat _) as [[p t]|] eqn:Hl; simpl; [|done].
      intros [= <-]. eexists _, _. split_and!; [done|lia|lia|]. by eexists _, _.
  - intros [= <-]. eexists _, _. split_and!; [done|done|lia|lia].
Qed.

Lemma reveal_step_None (path : list (Point * string)) (i : Z) :
  reveal_step path i = None ↔ i < - Z.of_nat (length path).
Proof.
  unfold reveal_step, py_index. case_bool_decide as Hlt; [|split; [done|lia]].
  destruct (decide (0 ≤ i)) as [Hi|Hi].
  - rewrite bool_decide_eq_true_2 by done.
    destruct (lookup_lt_is_Some_2 path (Z.to_nat i)) as [[p t] ->]; [lia|].
    simpl. split; [done|lia].
  - rewrite bool_decide_eq_false_2 by done. case_bool_decide as Hwrap.
    + destruct (lookup_lt_is_Some_2 path (Z.to_nat (Z.of_nat (length path) + i)))
        as [[p t] ->]; [lia|].
      simpl. split; [done|lia].
    + simpl. split; [lia|done].
Qed.

(** X16.  The shape of a response: when [respond_to_challenge] returns, the
    response has one revealed step per challenge position, with the same
    indices in the same order; it reports the length of the witness path
    and copies the challenge id, and the witness's commitment and nonce.  A
    step for an index at or past the end of the path reveals nothing; a
    step for an index inside the path reveals the path entry there; a
    negative index reveals the entry counted from the end of the path. *)
Theorem respond_to_challenge_shape (self : SpectralProtocol) (witness : Witness)
    (challenge : Challenge) (response : Response) :
  let path := Witness_path witness in
  respond_to_challenge self witness challenge = Some response →
  (Response_revealed_steps response).*1.*1 = Challenge_positions challenge
  ∧ Response_path_length response = Z.of_nat (length path)
  ∧ Response_challenge_id response = Challenge_challenge_id challenge
  ∧ Response_commitment response = Witness_commitment witness
  ∧ Response_nonce response = Witness_nonce witness
  ∧ ∀ i pos tile, (i, pos, tile) ∈ Response_revealed_steps response →
      (Z.of_nat (length path) ≤ i → pos = None ∧ tile = None)
      ∧ (0 ≤ i < Z.of_nat (length path) →
         ∃ p t, path !! Z.to_nat i = Some (p, t) ∧ pos = Some p ∧ tile = Some t)
      ∧ (i < 0 →
         ∃ p t, path !! Z.to_nat (Z.of_nat (length path) + i) = Some (p, t)
                ∧ pos = Some p ∧ tile = Some t).
Proof.
  intros path. unfold respond_to_challenge.
  change (mapM _ (Challenge_positions challenge))
    with (mapM (reveal_step path) (Challenge_positions challenge)).
  destruct (mapM _ _) as [steps|] eqn:Hsteps; simpl; [|done].
  intros [= <-]. simpl. apply mapM_Some_1 in Hsteps.
  split_and!; [|done..|].
  - induction Hsteps as [|i step ps steps Hstep _ IH]; csimpl; [done|].
    apply reveal_step_Some in Hstep as (pos & tile & -> & _). by rewrite IH.
  - intros i pos tile Hin.
    induction Hsteps as [|j step ps steps Hstep _ IH]; [by apply elem_of_nil in Hin|].
    apply elem_of_cons in Hin as [<-|Hin]; [|by apply IH].
    apply reveal_step_Some in Hstep as (pos' & tile' & [= -> <- <-] & Hrest).
    done.
Qed.

(** X17.  [respond_to_challenge] fails, with the [IndexError] of
    [witness.path[pos_idx]], exactly when some challenge position is below
    minus the length of the witness path. *)
Theorem respond_to_challenge_error (self : SpectralProtocol) (witness : Witness)
    (challenge : Challenge) :
  respond_to_challenge self witness challenge = None
  ↔ ∃ i, i ∈ Challenge_positions challenge
         ∧ i < - Z.of_nat (length (Witness_path witness)).
Proof.
  unfold respond_to_challenge.
  change (mapM _ (Challenge_positions challenge))
    with (mapM (reveal_step (Witness_path witness))
            (Challenge_positions challenge)).
  destruct (mapM _ _) as [steps|] eqn:Hsteps; simpl.
  - split; [done|]. intros (i & Hin & Hi).
    assert (is_Some (mapM (reveal_step (Witness_path witness))
                       (Challenge_positions challenge))) as Hsome
      by (by rewrite Hsteps).
    apply mapM_is_Some_1 in Hsome. rewrite Forall_forall in Hsome.
    destruct (Hsome i Hin) as [step Hstep]. simpl in Hstep.
    apply reveal_step_None in Hi. by rewrite Hi in Hstep.
  - split; [intros _|done]. apply mapM_None_1, Exists_exists in Hsteps.
    destruct Hsteps as (i & Hin & Hnone%reveal_step_None). eauto.
Qed.
End respond_properties.

Lemma sample_response_returned :
  respond_to_challenge sample_protocol sample_witness sample_challenge
  = Some sample_response.
Proof. by vm_compute. Qed.

Lemma respond_to_challenge_shape_witness :
  respond_to_challenge sample_protocol sample_witness sample_challenge
  = Some sample_response
  ∧ (Response_revealed_steps sample_response).*1.*1
    = Challenge_positions sample_challenge
  ∧ Response_path_length sample_response
    = Z.of_nat (length (Witness_path sample_witness))
  ∧ Response_nonce sample_response = Witness_nonce sample_witness.
Proof.
  split; [apply sample_response_returned|].
  destruct (respond_to_challenge_shape sample_protocol sample_witness
              sample_challenge sample_response sample_response_returned)
    as (Hidx & Hlen & _ & _ & Hnonce & _).
  by split_and!.
Defined.

(** ** Verification, continued *)

Section verify_extra_properties.
Implicit Types (steps : list (Z * option Point * option string)).

Lemma lookup_record_steps_other steps (m : gmap Z (option Point * option string))
    (i : Z) :
  i ∉ steps.*1.*1 → foldl record_step m steps !! i = m !! i.
Proof.
  revert m. induction steps as [|[[k pos] tile] steps IH]; intros m Hi; simpl.
  { done. }
  rewrite IH by (intros ?; apply Hi; by right).
  apply lookup_insert_ne. intros ->. apply Hi. by left.
Qed.

Lemma lookup_record_steps_elem steps (m : gmap Z (option Point * option string))
    (i : Z) (pos : option Point) (tile : option string) :
  NoDup steps.*1.*1 → (i, pos, tile) ∈ steps →
  foldl record_step m steps !! i = Some (pos, tile).
Proof.
  revert m. induction steps as [|[[k p] t] steps IH]; intros m Hnd Hin.
  { by apply elem_of_nil in Hin. }
  apply NoDup_cons in Hnd as [Hk Hnd]. simpl.
  apply elem_of_cons in Hin as [[= <- <- <-]|Hin]; [|by apply IH].
  rewrite lookup_record_steps_other by done. apply lookup_insert_eq.
Qed.

Lemma lookup_build_revealed_map steps (i : Z) (pos : option Point)
    (tile : option string) :
  NoDup steps.*1.*1 →
  build_revealed_map steps !! i = Some (pos, tile) ↔ (i, pos, tile) ∈ steps.
Proof.
  intros Hnd. split; [|by apply lookup_record_steps_elem].
  intros Hlook.
  assert (i ∈ steps.*1.*1) as Hi
    by (apply build_revealed_map_is_Some; by rewrite Hlook).
  apply list_elem_of_fmap in Hi as ([i' pos'] & -> & Hi).
  apply list_elem_of_fmap in Hi as ([[i'' pos''] tile''] & [= -> ->] & Hi).
  pose proof (lookup_record_steps_elem steps ∅ _ _ _ Hnd Hi) as Hlook'.
  unfold build_revealed_map in Hlook. simpl in Hlook.
  rewrite Hlook' in Hlook. by injection Hlook as -> ->.
Qed.

(** X18.  [verify_response] rejects a response whose challenge id or
    commitment differs from the challenge's, and one whose [path_length] is
    negative or exceeds the number of tiles of the instance. *)
Theorem verify_response_rejects_mismatch (self : SpectralProtocol)
    (instance : Instance) (challenge : Challenge) (response : Response) :
  Response_challenge_id response ≠ Challenge_challenge_id challenge
  ∨ Response_commitment response ≠ Challenge_commitment challenge
  ∨ Response_path_length response < 0
  ∨ Response_path_length response > Z.of_nat (size (Instance_tiles instance)) →
  verify_response self instance challenge response = false.
Proof.
  intros Hbad. apply not_true_is_false.
  intros (Hid & Hcm & _ & _ & Hlen)%verify_response_true.
  destruct Hbad as [?|[?|[?|?]]]; [done|done|lia|lia].
Qed.

(** X19.  Structural soundness: when the revealed steps have distinct
    indices, a step with an index below [path_length] that reveals nothing,
    names a point that is no tile of the instance, or claims a label other
    than the instance's, makes [verify_response] reject. *)
Theorem verify_response_rejects_wrong_step (self : SpectralProtocol)
    (instance : Instance) (challenge : Challenge) (response : Response)
    (i : Z) (pos : option Point) (tile : option string) :
  NoDup (Response_revealed_steps response).*1.*1 →
  (i, pos, tile) ∈ Response_revealed_steps response →
  i < Response_path_length response →
  step_matches instance pos tile = false →
  verify_response self instance challenge response = false.
Proof.
  intros Hnd Hin Hlt Hbad. apply not_true_is_false.
  intros (_ & _ & _ & Hloop2 & _)%verify_response_true.
  apply (lookup_build_revealed_map _ _ _ _ Hnd) in Hin.
  destruct (Hloop2 i pos tile Hin Hlt) as [_ Hok]. congruence.
Qed.

(** X20.  The order of the revealed steps does not matter: two responses
    that differ only in the order of their revealed steps, the indices
    being distinct, get the same verdict. *)
Theorem verify_response_order_irrelevant (self : SpectralProtocol)
    (instance : Instance) (challenge : Challenge) (challenge_id : string)
    steps steps' (path_length : Z) (commitment nonce : string) :
  NoDup steps.*1.*1 → steps ≡ₚ steps' →
  verify_response self instance challenge
    (mkResponse challenge_id steps path_length commitment nonce)
  = verify_response self instance challenge
      (mkResponse challenge_id steps' path_length commitment nonce).
Proof.
  intros Hnd Hperm.
  assert (build_revealed_map steps = build_revealed_map steps') as Hmap.
  { apply map_eq. intros i. apply option_eq. intros [pos tile].
    rewrite !lookup_build_revealed_map; [by rewrite Hperm|by rewrite <- Hperm|done]. }
  unfold verify_response. simpl. by rewrite Hmap.
Qed.

Lemma lookup_record_indexed (val : Z → option Point * option string)
    (ps : list Z) (m : gmap Z (option Point * option string)) (i : Z) :
  foldl record_step m ((λ k, (k, (val k).1, (val k).2)) <$> ps) !! i
  = if bool_decide (i ∈ ps) then Some (val i) else m !! i.
Proof.
  revert m. induction ps as [|k ps IH]; intros m; [done|].
  rewrite fmap_cons. cbn [foldl]. rewrite IH.
  rewrite (bool_decide_ext (i ∈ k :: ps) (i = k ∨ i ∈ ps)) by apply elem_of_cons.
  destruct (decide (i ∈ ps)) as [Hin|Hin].
  - rewrite (bool_decide_eq_true_2 (i ∈ ps)) by done.
    by rewrite bool_decide_eq_true_2 by auto.
  - rewrite (bool_decide_eq_false_2 (i ∈ ps)) by done.
    unfold record_step. destruct (decide (i = k)) as [->|Hne].
    + rewrite bool_decide_eq_true_2 by auto.
      rewrite lookup_insert_eq. by destruct (val k).
    + rewrite bool_decide_eq_false_2 by naive_solver.
      by rewrite lookup_insert_ne.
Qed.

(** X21.  Verification checks the revealed steps against the public
    instance only: for any challenge, a response that answers every
    challenged index with an arbitrary tile of the instance and its label,
    claims any path length between 0 and the number of tiles, and repeats
    the challenge's id and commitment is accepted.  No path, adjacency of
    the revealed points or opening of the commitment is needed. *)
Theorem verify_response_accepts_any_tiles (self : SpectralProtocol)
    (instance : Instance) (challenge : Challenge) (pick : Z → Point)
    (path_length : Z) (nonce : string) :
  (∀ i, i ∈ Challenge_positions challenge →
        is_Some (Instance_tiles instance !! pick i)) →
  0 ≤ path_length ≤ Z.of_nat (size (Instance_tiles instance)) →
  verify_response self instance challenge
    (mkResponse (Challenge_challenge_id challenge)
       ((λ i, (i, Some (pick i), Instance_tiles instance !! pick i))
          <$> Challenge_positions challenge)
       path_length (Challenge_commitment challenge) nonce) = true.
Proof.
  intros Hpick Hlen. apply verify_response_true. simpl.
  set (val := λ i : Z, (Some (pick i), Instance_tiles instance !! pick i)).
  assert (∀ i, build_revealed_map
                 ((λ i, (i, Some (pick i), Instance_tiles instance !! pick i))
                    <$> Challenge_positions challenge) !! i
               = if bool_decide (i ∈ Challenge_positions challenge)
                 then Some (val i) else None) as Hlook.
  { intros i. unfold build_revealed_map.
    by rewrite (lookup_record_indexed val). }
  assert (∀ i, i ∈ Challenge_positions challenge →
               step_matches instance (val i).1 (val i).2 = true) as Hok.
  { intros i [t Ht]%Hpick. unfold val, step_matches. simpl. rewrite !Ht.
    by apply bool_decide_eq_true. }
  split_and!; [done|done| | |lia|lia].
  - intros i Hi _. exists (val i).1, (val i).2.
    rewrite Hlook, bool_decide_eq_true_2 by done. split; [done|by apply Hok].
  - intros i pos tile Hi _. rewrite Hlook in Hi.
    case_bool_decide as Hin; [|done]. injection Hi as <- <-.
    split; [done|by apply (Hok i)].
Qed.

(** X22.  A response that claims an empty path is accepted whatever it
    reveals: with matching id and commitment and [path_length = 0], and no
    negative challenge position or revealed index, [verify_response]
    returns true. *)
Theorem verify_response_accepts_empty_claim (self : SpectralProtocol)
    (instance : Instance) (challenge : Challenge) (response : Response) :
  Response_challenge_id response = Challenge_challenge_id challenge →
  Response_commitment response = Challenge_commitment challenge →
  Response_path_length response = 0 →
  (∀ i, i ∈ Challenge_positions challenge → 0 ≤ i) →
  (∀ i, i ∈ (Response_revealed_steps response).*1.*1 → 0 ≤ i) →
  verify_response self instance challenge response = true.
Proof.
  intros Hid Hcm Hzero Hpos Hidx. apply verify_response_true.
  rewrite Hzero. split_and!; [done|done| | |lia|lia].
  - intros i Hi%Hpos ?. lia.
  - intros i pos tile Hlook ?.
    assert (0 ≤ i); [|lia]. apply Hidx, build_revealed_map_is_Some.
    by rewrite Hlook.
Qed.
End verify_extra_properties.

Lemma verify_response_rejects_mismatch_witness :
  let response :=
    mkResponse "wrong_id" (Response_revealed_steps sample_response)
      (Response_path_length sample_response)
      (Response_commitment sample_response) (Response_nonce sample_response) in
  Response_challenge_id response ≠ Challenge_challenge_id sample_challenge
  ∧ verify_response sample_protocol sample_instance sample_challenge response
    = false.
Proof.
  intros response.
  assert (Response_challenge_id response
          ≠ Challenge_challenge_id sample_challenge) as Hid by discriminate.
  split; [exact Hid|].
  apply (verify_response_rejects_mismatch sample_protocol sample_instance
           sample_challenge response).
  left. exact Hid.
Defined.

Lemma verify_response_rejects_wrong_step_witness :
  let steps :=
    [(0, Some (mkPoint 1 1), Some "X"); (3, Some (mkPoint 0 2), Some "C");
     (6, None, None)] in
  let response :=
    mkResponse (Challenge_challenge_id sample_challenge) steps 5
      (Challenge_commitment sample_challenge) "5eed" in
  (NoDup steps.*1.*1
   ∧ (0, Some (mkPoint 1 1), Some "X") ∈ steps
   ∧ 0 < Response_path_length response
   ∧ step_matches sample_instance (Some (mkPoint 1 1)) (Some "X") = false)
  ∧ verify_response sample_protocol sample_instance sample_challenge response
    = false.
Proof.
  intros steps response.
  assert (NoDup steps.*1.*1) as Hnd
    by (apply (bool_decide_unpack _); vm_compute; exact I).
  assert ((0, Some (mkPoint 1 1), Some "X") ∈ steps) as Hin by left.
  assert (0 < Response_path_length response) as Hlt by (simpl; lia).
  assert (step_matches sample_instance (Some (mkPoint 1 1)) (Some "X") = false)
    as Hbad by (by vm_compute).
  split; [by split_and!|].
  exact (verify_response_rejects_wrong_step sample_protocol sample_instance
           sample_challenge response 0 (Some (mkPoint 1 1)) (Some "X")
           Hnd Hin Hlt Hbad).
Defined.

Lemma verify_response_order_irrelevant_witness :
  let steps := Response_revealed_steps sample_response in
  (NoDup steps.*1.*1 ∧ steps ≡ₚ reverse steps)
  ∧ verify_response sample_protocol sample_instance sample_challenge
      (mkResponse "c0ffee" steps 5 (Witness_commitment sample_witness) "5eed")
    = verify_response sample_protocol sample_instance sample_challenge
        (mkResponse "c0ffee" (reverse steps) 5
           (Witness_commitment sample_witness) "5eed").
Proof.
  intros steps.
  assert (NoDup steps.*1.*1) as Hnd
    by (apply (bool_decide_unpack _); vm_compute; exact I).
  assert (steps ≡ₚ reverse steps) as Hperm by (by rewrite reverse_Permutation).
  split; [by split|].
  exact (verify_response_order_irrelevant sample_protocol sample_instance
           sample_challenge "c0ffee" steps (reverse steps) 5
           (Witness_commitment sample_witness) "5eed" Hnd Hperm).
Defined.

Lemma verify_response_accepts_any_tiles_witness :
  let pick := λ _ : Z, mkPoint 2 2 in
  ((∀ i, i ∈ Challenge_positions sample_challenge →
         is_Some (Instance_tiles sample_instance !! pick i))
   ∧ 0 ≤ 9 ≤ Z.of_nat (size (Instance_tiles sample_instance)))
  ∧ verify_response sample_protocol sample_instance sample_challenge
      (mkResponse (Challenge_challenge_id sample_challenge)
         ((λ i, (i, Some (pick i), Instance_tiles sample_instance !! pick i))
            <$> Challenge_positions sample_challenge)
         9 (Challenge_commitment sample_challenge) "none") = true.
Proof.
  intros pick.
  assert (∀ i, i ∈ Challenge_positions sample_challenge →
               is_Some (Instance_tiles sample_instance !! pick i)) as Hpick.
  { intros i _. apply (bool_decide_unpack _). vm_compute. exact I. }
  assert (0 ≤ 9 ≤ Z.of_nat (size (Instance_tiles sample_instance))) as Hlen
    by (by vm_compute).
  split; [by split|].
  exact (verify_response_accepts_any_tiles sample_protocol sample_instance
           sample_challenge pick 9 "none" Hpick Hlen).
Defined.

Lemma verify_response_accepts_empty_claim_witness :
  let response :=
    mkResponse (Challenge_challenge_id sample_challenge)
      [(0, Some (mkPoint 5 5), Some "Z")] 0
      (Challenge_commitment sample_challenge) "none" in
  ((∀ i, i ∈ Challenge_positions sample_challenge → 0 ≤ i)
   ∧ (∀ i, i ∈ (Response_revealed_steps response).*1.*1 → 0 ≤ i))
  ∧ verify_response sample_protocol sample_instance sample_challenge response
    = true.
Proof.
  intros response.
  assert (∀ i, i ∈ Challenge_positions sample_challenge → 0 ≤ i) as Hpos.
  { intros i Hi.
    assert (Challenge_positions sample_challenge = [0; 3; 6]) as Heq
      by (by vm_compute).
    rewrite Heq, !elem_of_cons, elem_of_nil in Hi. lia. }
  assert (∀ i, i ∈ (Response_revealed_steps response).*1.*1 → 0 ≤ i) as Hidx.
  { intros i Hi. simpl in Hi. rewrite !elem_of_cons, elem_of_nil in Hi. lia. }
  split; [by split|].
  exact (verify_response_accepts_empty_claim sample_protocol sample_instance
           sample_challenge response eq_refl eq_refl eq_refl Hpos Hidx).
Defined.

(** ** Challenges and witnesses, continued *)

Section challenge_extra_properties.
Context `{Hashlib}.

Lemma draw_positions_distinct (randbelow : nat → Z) (ks : list nat)
    (positions : list Z) :
  NoDup (positions ++ (randbelow <$> ks)) →
  foldl (draw_position randbelow) positions ks
  = (positions ++ (randbelow <$> ks))%list.
Proof.
  revert positions. induction ks as [|k ks IH]; intros positions Hnd; csimpl.
  { by rewrite app_nil_r. }
  assert (randbelow k ∉ positions) as Hnew.
  { apply NoDup_app in Hnd as (_ & Hdisj & _). intros Hin.
    apply (Hdisj _ Hin). by left. }
  unfold draw_position at 2. rewrite bool_decide_eq_false_2 by done.
  rewrite IH; rewrite <- app_assoc; done.
Qed.

(** X23.  How many positions a challenge has at the two extremes: none when
    no position is requested or the instance has size 0, and exactly
    [min num_challenges (size*size)] when all draws are different.  (Three
    positions are requested when [num_challenges] is not given.)  The
    challenge id is the token drawn. *)
Theorem create_challenge_count (self : SpectralProtocol) (token_hex8 : string)
    (randbelow : nat → Z) (instance : Instance) (commitment : string)
    (num_challenges : option Z) :
  let n := default 3 num_challenges in
  let s := Instance_size instance in
  let challenge :=
    create_challenge self token_hex8 randbelow instance commitment
      num_challenges in
  (n ≤ 0 ∨ s = 0 → Challenge_positions challenge = [])
  ∧ ((∀ j k : nat, Z.of_nat j < Z.min n (s * s) → Z.of_nat k < Z.min n (s * s) →
                   randbelow j = randbelow k → j = k) →
     Z.of_nat (length (Challenge_positions challenge))
     = Z.max 0 (Z.min n (s * s)))
  ∧ Challenge_challenge_id challenge = token_hex8.
Proof.
  intros n s challenge. unfold challenge, create_challenge. simpl.
  fold n. fold s. split_and!; [| |done].
  - intros Hzero.
    assert (Z.to_nat (Z.min n (s * s)) = 0%nat) as -> by nia. done.
  - intros Hinj. rewrite merge_sort_Permutation.
    rewrite draw_positions_distinct; simpl.
    + rewrite length_fmap, length_seq. lia.
    + apply NoDup_fmap_2_strong; [|apply NoDup_seq].
      intros j k Hj%elem_of_seq Hk%elem_of_seq. apply Hinj; lia.
Qed.

Lemma _find_path_head (self : SpectralProtocol) (tiles : gmap Point string)
    (start : Point) (length_ : Z) :
  is_Some (tiles !! start) → 1 ≤ length_ →
  ∃ tile rest, _find_path self tiles start length_ = (start, tile) :: rest.
Proof.
  intros Hstart HL. unfold _find_path.
  destruct (_find_path_loop_greedy tiles (Z.to_nat length_) [] start ∅)
    as (ext & -> & Hhead & Hne & _).
  { intros p. simpl. rewrite elem_of_nil. set_solver. }
  { by intros ?%elem_of_nil. }
  simpl. destruct Hhead as [->|?]; [|done].
  destruct Hne; [done|lia|done].
Qed.

(** X24.  [generate_witness] fails, with the [IndexError] of
    [random.choice], exactly when no start is given and the instance has no
    tile.  When the start is drawn, it is a tile of the instance: the path
    starts there and is not empty ([path_length >= 1]). *)
Theorem generate_witness_error (self : SpectralProtocol) (random_choice : nat)
    (token_hex16 : string) (instance : Instance) (path_length : Z)
    (start : option Point) :
  (generate_witness self random_choice token_hex16 instance path_length start
   = None
   ↔ start = None ∧ Instance_tiles instance = ∅)
  ∧ ∀ witness,
      generate_witness self random_choice token_hex16 instance path_length None
      = Some witness →
      1 ≤ path_length →
      ∃ pos tile rest,
        Witness_path witness = (pos, tile) :: rest
        ∧ Instance_tiles instance !! pos = Some tile.
Proof.
  set (positions := (map_to_list (Instance_tiles instance)).*1).
  assert (positions = [] ↔ Instance_tiles instance = ∅) as Hempty.
  { unfold positions. rewrite <- map_to_list_empty_iff.
    by destruct (map_to_list _). }
  assert (positions ≠ [] →
          ∃ p, positions !! (random_choice `mod` length positions)%nat = Some p
               ∧ is_Some (Instance_tiles instance !! p)) as Hdraw.
  { intros Hne.
    destruct (lookup_lt_is_Some_2 positions
                (random_choice `mod` length positions)%nat) as [p Hp].
    { apply Nat.mod_upper_bound. by destruct positions. }
    exists p. split; [done|].
    apply list_elem_of_lookup_2, list_elem_of_fmap in Hp
      as ([p' t] & -> & Hin%elem_of_map_to_list).
    by eexists. }
  split.
  - unfold generate_witness. destruct start as [start|]; simpl.
    { split; [done|by intros [? _]]. }
    fold positions. destruct (decide (positions = [])) as [Hnil|Hne].
    + rewrite Hnil. simpl. split; [intros _|done]. split; [done|by apply Hempty].
    + destruct (Hdraw Hne) as (p & -> & _). simpl.
      split; [done|]. intros [_ Hnone%Hempty]. done.
  - intros witness Hgen HL. unfold generate_witness in Hgen. simpl in Hgen.
    fold positions in Hgen.
    destruct (decide (positions = [])) as [Hnil|Hne].
    { by rewrite Hnil in Hgen. }
    destruct (Hdraw Hne) as (p & Hp & Htile). rewrite Hp in Hgen. simpl in Hgen.
    injection Hgen as <-. simpl.
    destruct (_find_path_head self (Instance_tiles instance) p path_length
                Htile HL) as (tile & rest & Hpath).
    exists p, tile, rest. split; [done|].
    pose proof (_find_path_ok self (Instance_tiles instance) p path_length)
      as [_ Hok].
    apply Hok. rewrite Hpath. by left.
Qed.
End challenge_extra_properties.

Lemma create_challenge_count_witness :
  let randbelow := λ k : nat, Z.of_nat k in
  ((0 ≤ 0 ∨ Instance_size sample_instance = 0)
   ∧ ∀ j k : nat, Z.of_nat j < Z.min 4 (3 * 3) → Z.of_nat k < Z.min 4 (3 * 3) →
                  randbelow j = randbelow k → j = k)
  ∧ Challenge_positions
      (create_challenge sample_protocol "c0ffee" randbelow sample_instance
         "commitment" (Some 0)) = []
  ∧ Z.of_nat (length (Challenge_positions
                        (create_challenge sample_protocol "c0ffee" randbelow
                           sample_instance "commitment" (Some 4))))
    = Z.max 0 (Z.min 4 (3 * 3)).
Proof.
  intros randbelow.
  assert (0 ≤ 0 ∨ Instance_size sample_instance = 0) as Hzero by (left; lia).
  assert (∀ j k : nat, Z.of_nat j < Z.min 4 (3 * 3) →
                       Z.of_nat k < Z.min 4 (3 * 3) →
                       randbelow j = randbelow k → j = k) as Hinj
    by (intros j k _ _; unfold randbelow; lia).
  split; [by split|]. split.
  - exact (proj1 (@create_challenge_count sample_protocol "c0ffee" randbelow
                    sample_instance "commitment" (Some 0)) Hzero).
  - exact (proj1 (proj2 (@create_challenge_count sample_protocol "c0ffee"
                           randbelow sample_instance "commitment" (Some 4)))
             Hinj).
Defined.

Lemma generate_witness_error_witness :
  let witness :=
    default (mkWitness [] EmptyString EmptyString)
      (@generate_witness toy_hashlib sample_protocol 4 "5eed" sample_instance 5
         None) in
  (@generate_witness toy_hashlib sample_protocol 4 "5eed" sample_instance 5 None
   = Some witness ∧ 1 ≤ 5)
  ∧ ∃ pos tile rest,
      Witness_path witness = (pos, tile) :: rest
      ∧ Instance_tiles sample_instance !! pos = Some tile.
Proof.
  intros witness.
  assert (@generate_witness toy_hashlib sample_protocol 4 "5eed" sample_instance
            5 None = Some witness) as Hgen by (by vm_compute).
  assert (1 ≤ 5) as HL by lia.
  split; [by split|].
  exact (proj2 (@generate_witness_error toy_hashlib sample_protocol 4%nat "5eed"
                  sample_instance 5 None) witness Hgen HL).
Defined.

(** ** The periodicity check *)

Section periodicity_properties.
Context `{Hashlib}.

Lemma count_shift_fold (tiles : gmap Point string) (px py : Z)
    (items : list (Point * string)) (m0 t0 : Z) :
  ∃ m t, foldl (count_shift tiles px py) (m0, t0) items = (m, t)
    ∧ 0 ≤ m - m0 ≤ t - t0 ∧ t - t0 ≤ Z.of_nat (length items)
    ∧ (t0 < t ↔ ∃ pos tile, (pos, tile) ∈ items
                  ∧ is_Some (tiles !! mkPoint (Point_x pos + px)
                                        (Point_y pos + py))).
Proof.
  revert m0 t0. induction items as [|[pos tile] items IH]; intros m0 t0; simpl.
  { exists m0, t0. split_and!; [done|lia..|].
    split; [lia|]. by intros (? & ? & ?%elem_of_nil & _). }
  destruct (tiles !! mkPoint (Point_x pos + px) (Point_y pos + py))
    as [tile'|] eqn:Hshift.
  - destruct (IH (if bool_decide (tile' = tile) then m0 + 1 else m0) (t0 + 1))
      as (m & t & Heq & Hm & Ht & Hpos).
    exists m, t. split_and!.
    + rewrite <- Heq. by case_bool_decide.
    + case_bool_decide; lia.
    + case_bool_decide; lia.
    + lia.
    + split; [intros _|lia]. exists pos, tile. split; [by left|].
      rewrite Hshift. by eexists.
  - destruct (IH m0 t0) as (m & t & Heq & Hm & Ht & Hpos).
    exists m, t. split_and!; [done|lia..|].
    rewrite Hpos. split.
    + intros (p & l & Hin & Hs). exists p, l. split; [by right|done].
    + intros (p & l & [[= -> ->]|Hin]%elem_of_cons & Hs).
      * rewrite Hshift in Hs. by destruct Hs.
      * by exists p, l.
Qed.

Lemma period_counts_spec (tiles : gmap Point string) (px py : Z) :
  ∃ m t, period_counts tiles px py = (m, t)
    ∧ 0 ≤ m ≤ t ∧ t ≤ Z.of_nat (size tiles)
    ∧ (0 < t ↔ ∃ pos, is_Some (tiles !! pos)
                 ∧ is_Some (tiles !! mkPoint (Point_x pos + px)
                                       (Point_y pos + py))).
Proof.
  unfold period_counts.
  destruct (count_shift_fold tiles px py (map_to_list tiles) 0 0)
    as (m & t & Heq & Hm & Ht & Hpos).
  exists m, t. rewrite length_map_to_list in Ht.
  split_and!; [done|lia..|]. rewrite Hpos. split.
  - intros (pos & tile & Hin%elem_of_map_to_list & Hs). exists pos.
    split; [by eexists|done].
  - intros (pos & [tile Hin] & Hs). exists pos, tile.
    split; [by apply elem_of_map_to_list|done].
Qed.

Lemma lookup_record_periods (tiles : gmap Point string)
    (periods : list (Z * Z)) (results : gmap (Z * Z) (Z * Z)) (period : Z * Z) :
  foldl (record_period tiles) results periods !! period
  = if decide (period ∈ periods
               ∧ (period_counts tiles period.1 period.2).2 > 0)
    then Some (period_counts tiles period.1 period.2)
    else results !! period.
Proof.
  revert results. induction periods as [|q periods IH]; intros results;
    cbn [foldl].
  { destruct (decide _) as [[?%elem_of_nil _]|]; done. }
  rewrite IH. destruct (decide (period ∈ periods ∧ _)) as [[Hin Hpos]|Hno].
  - rewrite decide_True; [done|]. split; [by right|done].
  - unfold record_period.
    destruct (period_counts tiles q.1 q.2) as [m t] eqn:Hq.
    case_bool_decide as Ht.
    + destruct (decide (q = period)) as [->|Hne].
      * rewrite lookup_insert_eq, decide_True; [by rewrite Hq|].
        split; [by left|]. by rewrite Hq.
      * rewrite lookup_insert_ne by done.
        rewrite decide_False; [done|].
        rewrite elem_of_cons. naive_solver.
    + rewrite decide_False; [done|]. rewrite elem_of_cons.
      intros [[->|?] Hpos]; [|naive_solver]. rewrite Hq in Hpos. done.
Qed.

Lemma record_periods_flat (tiles : gmap Point string) (pxs pys : list Z)
    (results : gmap (Z * Z) (Z * Z)) :
  foldl (λ results px,
           foldl (λ results py, record_period tiles results (px, py))
                 results pys)
        results pxs
  = foldl (record_period tiles) results (px ← pxs; py ← pys; [(px, py)]).
Proof.
  rewrite foldl_bind. revert results.
  induction pxs as [|px pxs IH]; intros results; simpl; [done|].
  rewrite foldl_bind_singleton. apply IH.
Qed.

Lemma check_periodicity_flat (self : Tiling) (tiles : gmap Point string)
    (max_period : option Z) :
  check_periodicity self tiles max_period
  = foldl (record_period tiles) ∅
      (px ← seqZ 1 (default 5 max_period);
       py ← seqZ 1 (default 5 max_period); [(px, py)]).
Proof. unfold check_periodicity. apply record_periods_flat. Qed.

Lemma check_periodicity_lookup (self : Tiling) (tiles : gmap Point string)
    (max_period : option Z) (px py : Z) :
  let results := check_periodicity self tiles max_period in
  (is_Some (results !! (px, py))
   ↔ (1 ≤ px ≤ default 5 max_period ∧ 1 ≤ py ≤ default 5 max_period)
     ∧ ∃ pos, is_Some (tiles !! pos)
              ∧ is_Some (tiles !! mkPoint (Point_x pos + px)
                                    (Point_y pos + py)))
  ∧ ∀ matches total, results !! (px, py) = Some (matches, total) →
      0 ≤ matches ≤ total ∧ 1 ≤ total ≤ Z.of_nat (size tiles).
Proof.
  intros results. unfold results.
  rewrite check_periodicity_flat, lookup_record_periods. simpl.
  destruct (period_counts_spec tiles px py) as (m & t & Heq & Hm & Ht & Hpos).
  rewrite Heq. simpl.
  assert ((px, py) ∈ (px ← seqZ 1 (default 5 max_period);
                      py ← seqZ 1 (default 5 max_period); [(px, py)])
          ↔ 1 ≤ px ≤ default 5 max_period ∧ 1 ≤ py ≤ default 5 max_period)
    as Hin.
  { rewrite list_elem_of_bind. setoid_rewrite list_elem_of_bind.
    setoid_rewrite list_elem_of_singleton. setoid_rewrite elem_of_seqZ. split.
    - intros (x & (y & [= -> ->] & ?) & ?). lia.
    - intros [? ?]. exists px. split; [|lia]. exists py. split; [done|lia]. }
  destruct (decide _) as [[Hper Htot]|Hno].
  - split.
    + split; [intros _|by eexists]. split; [by apply Hin|]. apply Hpos. lia.
    + intros matches total [= <- <-]. lia.
  - rewrite lookup_empty. split; [|done]. split; [by intros [??]|].
    intros [Hrange Hex]. destruct Hno. split; [by apply Hin|].
    apply Hpos in Hex. lia.
Qed.
(** X25.  What [check_periodicity] reports: an entry for the period
    [(px, py)] exists exactly when [1 <= px, py <= max_period] and some tile
    has its shift by [(px, py)] among the tiles; its counts satisfy
    [0 <= matches <= total] and [1 <= total <= len(tiles)], so the ratio
    [matches / total] the source stores lies between 0 and 1. *)
Theorem check_periodicity_entries (self : Tiling) (tiles : gmap Point string)
    (max_period : option Z) (px py : Z) :
  let results := check_periodicity self tiles max_period in
  (is_Some (results !! (px, py))
   ↔ (1 ≤ px ≤ default 5 max_period ∧ 1 ≤ py ≤ default 5 max_period)
     ∧ ∃ pos, is_Some (tiles !! pos)
              ∧ is_Some (tiles !! mkPoint (Point_x pos + px)
                                    (Point_y pos + py)))
  ∧ ∀ matches total, results !! (px, py) = Some (matches, total) →
      0 ≤ matches ≤ total ∧ 1 ≤ total ≤ Z.of_nat (size tiles).
Proof. apply check_periodicity_lookup. Qed.

Lemma generate_region_is_Some (self : Tiling) (width height : Z)
    (origin : option Point) (p : Point) :
  is_Some (generate_region self width height origin !! p)
  ↔ Point_x (default (mkPoint 0 0) origin) ≤ Point_x p
      < Point_x (default (mkPoint 0 0) origin) + width
    ∧ Point_y (default (mkPoint 0 0) origin) ≤ Point_y p
      < Point_y (default (mkPoint 0 0) origin) + height.
Proof.
  rewrite <- elem_of_dom.
  by rewrite dom_generate_region, elem_of_list_to_set, elem_of_region_points.
Qed.

Lemma period_pairs_elem_of (a b px py : Z) :
  (px, py) ∈ (x ← seqZ 1 a; y ← seqZ 1 b; [(x, y)])
  ↔ 1 ≤ px ≤ a ∧ 1 ≤ py ≤ b.
Proof.
  rewrite list_elem_of_bind. setoid_rewrite list_elem_of_bind.
  setoid_rewrite list_elem_of_singleton. setoid_rewrite elem_of_seqZ. split.
  - intros (x & (y & [= -> ->] & ?) & ?). lia.
  - intros [? ?]. exists px. split; [|lia]. exists py. split; [done|lia].
Qed.

Lemma period_pairs_NoDup (a b : Z) :
  NoDup (x ← seqZ 1 a; y ← seqZ 1 b; [(x, y)]).
Proof.
  apply NoDup_bind; [| |apply NoDup_seqZ].
  - intros x1 x2 p _ _ (y1 & ->%list_elem_of_singleton & _)%list_elem_of_bind
      (y2 & [=]%list_elem_of_singleton & _)%list_elem_of_bind. done.
  - intros x _. apply NoDup_bind; [| |apply NoDup_seqZ].
    + intros y1 y2 p _ _ ->%list_elem_of_singleton [=]%list_elem_of_singleton.
      done.
    + intros y _. apply NoDup_singleton.
Qed.

Lemma period_pairs_length (a b : Z) :
  length (x ← seqZ 1 a; y ← seqZ 1 b; [(x, y)]) = (Z.to_nat a * Z.to_nat b)%nat.
Proof.
  rewrite <- (length_seqZ 1 a). generalize (seqZ 1 a). intros xs.
  induction xs as [|x xs IH]; csimpl; [done|].
  rewrite length_app, IH. f_equal.
  rewrite <- (length_seqZ 1 b). generalize (seqZ 1 b). intros ys.
  induction ys; csimpl; [done | by f_equal].
Qed.

(** X26.  The periodicity check of a generated region of width [w] and
    height [h]: the period [(px, py)] is reported exactly when
    [1 <= px <= min max_period (w - 1)] and
    [1 <= py <= min max_period (h - 1)]; so all [max_period * max_period]
    periods are reported when the region is wider and higher than
    [max_period]. *)
Theorem check_periodicity_region (self : Tiling) (width height : Z)
    (origin : option Point) (max_period : option Z) (px py : Z) :
  let results :=
    check_periodicity self (generate_region self width height origin)
      max_period in
  let a := Z.min (default 5 max_period) (width - 1) in
  let b := Z.min (default 5 max_period) (height - 1) in
  (is_Some (results !! (px, py)) ↔ 1 ≤ px ≤ a ∧ 1 ≤ py ≤ b)
  ∧ Z.of_nat (size results) = Z.max 0 a * Z.max 0 b.
Proof.
  intros results a b.
  assert (∀ px py, is_Some (results !! (px, py)) ↔ 1 ≤ px ≤ a ∧ 1 ≤ py ≤ b)
    as Hsome.
  { clear px py. intros px py. unfold results.
    rewrite (proj1 (check_periodicity_lookup self _ max_period px py)).
    setoid_rewrite generate_region_is_Some.
    set (o := default (mkPoint 0 0) origin). split.
    - intros [Hrange (pos & Hpos & Hshift)]. simpl in Hshift. lia.
    - intros [Hx Hy]. split; [lia|]. exists o. simpl. lia. }
  split; [apply Hsome|].
  assert (dom results
          = list_to_set (x ← seqZ 1 a; y ← seqZ 1 b; [(x, y)])) as Hdom.
  { apply set_eq. intros [x y].
    by rewrite elem_of_dom, Hsome, elem_of_list_to_set, period_pairs_elem_of. }
  rewrite <- size_dom, Hdom, size_list_to_set by apply period_pairs_NoDup.
  rewrite period_pairs_length. lia.
Qed.
End periodicity_properties.

Lemma check_periodicity_entries_witness :
  let results :=
    check_periodicity (mkTiling 42) (Instance_tiles sample_instance) None in
  results !! (1, 1) = Some (2, 4)
  ∧ 0 ≤ 2 ≤ 4 ∧ 1 ≤ 4 ≤ Z.of_nat (size (Instance_tiles sample_instance)).
Proof.
  intros results.
  assert (results !! (1, 1) = Some (2, 4)) as Hl by (by vm_compute).
  split; [exact Hl|].
  exact (proj2 (@check_periodicity_entries (mkTiling 42)
                  (Instance_tiles sample_instance) None 1 1) 2 4 Hl).
Defined.

(** ** A witness that does not match the instance *)

Section dishonest_witness.

(** X27.  A mismatch that is challenged is caught: if the witness path holds,
    at a challenged index, a step whose label is not the instance's label
    at that point (or whose point is no tile of the instance), then the
    response built by [respond_to_challenge] is rejected by
    [verify_response]. *)
Theorem challenged_mismatch_rejected (self : SpectralProtocol)
    (instance : Instance) (witness : Witness) (challenge : Challenge)
    (i : Z) (pos : Point) (tile : string) :
  (∀ j, j ∈ Challenge_positions challenge → 0 ≤ j) →
  i ∈ Challenge_positions challenge →
  Witness_path witness !! Z.to_nat i = Some (pos, tile) →
  Instance_tiles instance !! pos ≠ Some tile →
  ∃ response,
    respond_to_challenge self witness challenge = Some response
    ∧ verify_response self instance challenge response = false.
Proof.
  intros Hpos Hi Hstep Hbad. eexists. split.
  { by apply respond_to_challenge_honest. }
  apply not_true_is_false.
  intros (_ & _ & Hloop1 & _)%verify_response_true. simpl in Hloop1.
  pose proof (Hpos i Hi) as Hnonneg.
  assert (i < Z.of_nat (length (Witness_path witness))) as Hlt
    by (apply lookup_lt_Some in Hstep; lia).
  destruct (Hloop1 i Hi Hlt) as (p & t & Hlook & Hmatch).
  unfold build_revealed_map in Hlook. rewrite lookup_record_reveal in Hlook.
  rewrite bool_decide_eq_true_2 in Hlook by done.
  unfold reveal_value, py_index in Hlook.
  rewrite !bool_decide_eq_true_2, Hstep in Hlook by done.
  injection Hlook as <- <-. unfold step_matches in Hmatch.
  destruct (Instance_tiles instance !! pos) as [tile'|]; [|done].
  apply bool_decide_eq_true in Hmatch. congruence.
Qed.
End dishonest_witness.

Lemma challenged_mismatch_rejected_witness :
  let witness :=
    mkWitness [(mkPoint 0 0, "X"); (mkPoint 1 0, "Y")] "fake" "5eed" in
  let challenge := mkChallenge "c0ffee" [0; 1] "fake" in
  ((∀ j, j ∈ Challenge_positions challenge → 0 ≤ j)
   ∧ 0 ∈ Challenge_positions challenge
   ∧ Witness_path witness !! Z.to_nat 0 = Some (mkPoint 0 0, "X")
   ∧ Instance_tiles sample_instance !! mkPoint 0 0 ≠ Some "X")
  ∧ ∃ response,
      respond_to_challenge sample_protocol witness challenge = Some response
      ∧ verify_response sample_protocol sample_instance challenge response
        = false.
Proof.
  intros witness challenge.
  assert (∀ j, j ∈ Challenge_positions challenge → 0 ≤ j) as Hpos.
  { intros j Hj. simpl in Hj. rewrite !elem_of_cons, elem_of_nil in Hj. lia. }
  assert (0 ∈ Challenge_positions challenge) as Hi by left.
  assert (Witness_path witness !! Z.to_nat 0 = Some (mkPoint 0 0, "X")) as Hstep
    by reflexivity.
  assert (Instance_tiles sample_instance !! mkPoint 0 0 ≠ Some "X") as Hbad
    by (by vm_compute).
  split; [by split_and!|].
  exact (challenged_mismatch_rejected sample_protocol sample_instance witness
           challenge 0 (mkPoint 0 0) "X" Hpos Hi Hstep Hbad).
Defined.
